(** * A shallow embedding of the memory allocator of allocator.c

    The allocator is C code for an LP64 target: [size_t] and pointers are
    64-bit, [struct mem_block] is packed (64 bytes) and [struct free_block]
    appends two pointers to it (80 bytes).  Block headers live in the
    memory they describe, so the embedding keeps a byte-addressed memory
    and reads and writes the fields at their offsets.

    What is outside the model: the mutex (calls are sequential here),
    the logger ([LOG], [perror]) and access faults of the target: the
    memory is total and [NULL] is address 0.  The faults that are kept
    are the [memset] of [calloc_impl] through a null pointer or past the
    mapping it was given, and a [free] of the C library on a pointer that
    is not the library's. *)

From Stdlib Require Import ZArith List Bool Lia.
Import ListNotations.
Local Open Scope Z_scope.

(** ** Machine integers *)

Definition SIZE_MAX1 : Z := 2 ^ 64.

(** Value of a [size_t] (or pointer) computation: reduction modulo 2^64. *)
Definition wrap (x : Z) : Z := x mod SIZE_MAX1.

(** Conversion of a [size_t] value to [ssize_t] (two's complement). *)
Definition to_ssize (x : Z) : Z :=
  if wrap x <? 2 ^ 63 then wrap x else wrap x - SIZE_MAX1.

Definition NULL : Z := 0.

(** ** Byte-addressed memory, little endian *)

Definition memory : Type := Z -> Z.

Definition load8 (m : memory) (a : Z) : Z := m a mod 256.

Definition store8 (m : memory) (a v : Z) : memory :=
  fun x => if x =? a then v mod 256 else m x.

Fixpoint load_le (n : nat) (m : memory) (a : Z) : Z :=
  match n with
  | O => 0
  | S k => load8 m a + 256 * load_le k m (a + 1)
  end.

Fixpoint store_le (n : nat) (m : memory) (a v : Z) : memory :=
  match n with
  | O => m
  | S k => store_le k (store8 m a v) (a + 1) (v / 256)
  end.

Definition load64 (m : memory) (a : Z) : Z := load_le 8 m a.
Definition store64 (m : memory) (a v : Z) : memory := store_le 8 m a v.

(** [memset(p, c, n)], [memcpy(dst, src, n)] and the byte-wise copy of a
    list (used for [strcpy]). *)
Definition memset (m : memory) (p c n : Z) : memory :=
  fun x => if (p <=? x) && (x <? p + n) then c mod 256 else m x.

Definition memcpy (m : memory) (dst src n : Z) : memory :=
  fun x => if (dst <=? x) && (x <? dst + n) then m (src + (x - dst)) else m x.

Fixpoint store_bytes (m : memory) (a : Z) (bs : list Z) : memory :=
  match bs with
  | [] => m
  | b :: bs' => store_bytes (store8 m a b) (a + 1) bs'
  end.

(** [strcpy(dst, s)]: the bytes of [s] and the terminator.  A C string
    ends at its first zero byte. *)
Fixpoint c_string (s : list Z) : list Z :=
  match s with
  | [] => []
  | b :: s' => if b mod 256 =? 0 then [] else b :: c_string s'
  end.

Definition strcpy (m : memory) (dst : Z) (s : list Z) : memory :=
  store_bytes m dst (c_string s ++ [0]).

(** ** Layout of [struct mem_block] and [struct free_block] (packed) *)

Definition off_region : Z := 0.
Definition off_name : Z := 8.
Definition off_size : Z := 40.
Definition off_next_block : Z := 48.
Definition off_prev_block : Z := 56.
Definition sizeof_mem_block : Z := 64.
Definition off_next_free : Z := 64.
Definition off_prev_free : Z := 72.

Definition ALIGNMENT : Z := 16.

Definition get_region (m : memory) (b : Z) : Z := load64 m (b + off_region).
Definition get_size (m : memory) (b : Z) : Z := load64 m (b + off_size).
Definition get_next_block (m : memory) (b : Z) : Z := load64 m (b + off_next_block).
Definition get_prev_block (m : memory) (b : Z) : Z := load64 m (b + off_prev_block).
Definition get_next_free (m : memory) (b : Z) : Z := load64 m (b + off_next_free).
Definition get_prev_free (m : memory) (b : Z) : Z := load64 m (b + off_prev_free).

Definition set_region (m : memory) (b v : Z) : memory := store64 m (b + off_region) v.
Definition set_size (m : memory) (b v : Z) : memory := store64 m (b + off_size) v.
Definition set_next_block (m : memory) (b v : Z) : memory := store64 m (b + off_next_block) v.
Definition set_prev_block (m : memory) (b v : Z) : memory := store64 m (b + off_prev_block) v.
Definition set_next_free (m : memory) (b v : Z) : memory := store64 m (b + off_next_free) v.
Definition set_prev_free (m : memory) (b v : Z) : memory := store64 m (b + off_prev_free) v.

(** ** Global heap state *)

Record heap : Type := mkHeap {
  blist_head : Z;
  blist_tail : Z;
  free_head : Z;
  free_tail : Z;
  mem : memory
}.

Definition with_mem (h : heap) (m : memory) : heap :=
  mkHeap (blist_head h) (blist_tail h) (free_head h) (free_tail h) m.

(** The state at program start: all four list pointers are [NULL]. *)
Definition initial_heap : heap := mkHeap NULL NULL NULL NULL (fun _ => 0).

(** ** Helper functions *)

(** [align]: [alignment = 0] is a division by zero in C and is not an
    input of the model. *)
Definition align (orig_size alignment : Z) : Z :=
  let new_size := wrap ((orig_size / alignment) * alignment) in
  if negb (orig_size mod alignment =? 0)
  then wrap (new_size + alignment)
  else new_size.

(** [~(0x01)] is the [int] -2, converted to [size_t] for the [&]. *)
Definition not_flag : Z := wrap (Z.lnot 1).

Definition set_free (m : memory) (block : Z) : memory :=
  set_size m block (Z.lor (get_size m block) 1).

Definition set_used (m : memory) (block : Z) : memory :=
  set_size m block (Z.land (get_size m block) not_flag).

Definition real_size (size : Z) : Z := Z.land size not_flag.

Definition is_free (m : memory) (block : Z) : bool :=
  Z.land (get_size m block) 1 =? 1.

Definition add_free (h : heap) (block : Z) : heap :=
  let m1 := set_free (mem h) block in
  let fblock := block in
  if (free_head h =? NULL) && (free_tail h =? NULL) then
    mkHeap (blist_head h) (blist_tail h) fblock fblock m1
  else
    let m2 := set_next_free m1 fblock (free_head h) in
    let m3 := set_prev_free m2 (free_head h) fblock in
    mkHeap (blist_head h) (blist_tail h) fblock (free_tail h) m3.

(** ** Splitting and merging *)

Definition min_size : Z := 80.

(** [split_block].  The pointer [new_block] is computed before the
    checks, as in the source; the assignment of [new_block->region] after
    the [if]/[else] is never reached (both branches return), so the model
    has no write of the region field. *)
Definition split_block (h : heap) (block size : Z) : heap * Z :=
  if (block =? NULL) || (size <? min_size) then (h, NULL) else
  let m := mem h in
  let block_size := real_size (get_size m block) in
  let new_block := wrap (block + block_size - size) in
  if block_size <? min_size then (h, NULL) else
  if negb (is_free m block) then (h, NULL) else
  if get_next_block m block =? NULL then (h, NULL) else
  let m1 := set_next_block m new_block (get_next_block m block) in
  let m2 := set_next_block m1 block new_block in
  let m3 := set_prev_block m2 new_block block in
  let m4 := set_prev_block m3 (get_next_block m3 new_block) new_block in
  let new_size := to_ssize (get_size m4 block - size) in
  let m5 := set_size m4 block new_size in
  let m6 := set_size m5 new_block block_size in
  let new_block_new_size := to_ssize (get_size m6 new_block - new_size) in
  let m7 := set_size m6 new_block (new_block_new_size + 2) in
  (with_mem h m7, new_block).

(** [merge_block]: the body is the single statement [return NULL]. *)
Definition merge_block (h : heap) (block : Z) : heap * Z := (h, NULL).

(** ** Free space management *)

(** The [while] loop of [first_fit], bounded by [fuel]; [None] means the
    bound was reached before the loop ended. *)
Fixpoint first_fit_loop (fuel : nat) (m : memory) (free size : Z) : option Z :=
  match fuel with
  | O => None
  | S k =>
      if free =? NULL then Some NULL
      else if size <=? real_size (get_size m free) then Some free
      else first_fit_loop k m (get_next_free m free) size
  end.

Definition first_fit (fuel : nat) (h : heap) (size : Z) : option Z :=
  first_fit_loop fuel (mem h) (free_head h) size.

Definition worst_fit (h : heap) (size : Z) : Z := NULL.
Definition best_fit (h : heap) (size : Z) : Z := NULL.

(** [reuse] returns [NULL] at once; the strategy dispatch is commented
    out in the source. *)
Definition reuse (h : heap) (size : Z) : Z := NULL.

(** ** The allocation interface *)

Definition PAGE_SIZE : Z := 4096.

(** An anonymous private mapping: whole pages, zero-filled. *)
Definition mmap_anon (m : memory) (addr len : Z) : memory :=
  memset m addr 0 (((len + PAGE_SIZE - 1) / PAGE_SIZE) * PAGE_SIZE).

(** [malloc_impl].  [mm] is the answer of [mmap] ([None] for
    [MAP_FAILED], [Some a] for a mapping at [a]) and [scribble] tells
    whether [ALLOCATOR_SCRIBBLE] is set in the environment. *)
Definition malloc_impl (mm : option Z) (scribble : bool)
    (h : heap) (size : Z) (name : list Z) : heap * Z :=
  let actual_size := wrap (size + sizeof_mem_block) in
  let aligned_size := align actual_size ALIGNMENT in
  let reused_block := reuse h aligned_size in
  if negb (reused_block =? NULL) then
    (with_mem h (set_used (mem h) reused_block),
     wrap (reused_block + sizeof_mem_block))
  else
    match mm with
    | None => (h, NULL)
    | Some block =>
        let m0 := mmap_anon (mem h) block actual_size in
        let m1 := strcpy m0 (block + off_name) name in
        let m2 := set_region m1 block block in
        let m3 := set_free m2 block in
        let h4 := fst (split_block (with_mem h m3) block
                         (wrap (real_size (get_size m3 block) - aligned_size))) in
        let m5 := set_used (mem h4) block in
        let m6 := set_size m5 block actual_size in
        let m7 := if scribble
                  then memset m6 (wrap (block + sizeof_mem_block)) 170 actual_size
                  else m6 in
        (with_mem h4 m7, wrap (block + sizeof_mem_block))
    end.

Definition free_impl (h : heap) (ptr : Z) : heap :=
  if ptr =? NULL then h
  else
    let block := wrap (ptr - sizeof_mem_block) in
    add_free h block.

(** The length of a mapping of [len] bytes: whole pages. *)
Definition page_span (len : Z) : Z :=
  ((len + PAGE_SIZE - 1) / PAGE_SIZE) * PAGE_SIZE.

(** Whether the [n] bytes from [ptr] lie inside the mapping that
    [malloc_impl] made for a request of [n] bytes (at the address [mm]
    answered) and inside the address space. *)
Definition in_mapping (mm : option Z) (ptr n : Z) : bool :=
  match mm with
  | None => false
  | Some a =>
      (a <=? ptr)
      && (ptr + n <=? a + page_span (wrap (n + sizeof_mem_block)))
      && (ptr + n <=? SIZE_MAX1)
  end.

(** [calloc_impl].  The result of [malloc_impl] is handed to [memset]
    unchecked.  [None] stands for a [memset] that does not stay in mapped
    memory: of a non-empty range through the null pointer, or of a range
    that leaves the mapping of the new block (the request plus the header
    size wrapped, so the mapping is shorter than the range). *)
Definition calloc_impl (mm : option Z) (scribble : bool)
    (h : heap) (nmemb size : Z) (name : list Z) : option (heap * Z) :=
  let '(h1, ptr) := malloc_impl mm scribble h (wrap (nmemb * size)) name in
  if (ptr =? NULL) && (0 <? wrap (nmemb * size)) then None
  else if negb (ptr =? NULL) && negb (in_mapping mm ptr (wrap (nmemb * size)))
  then None
  else Some (with_mem h1 (memset (mem h1) ptr 0 (wrap (nmemb * size))), ptr).

(** What [malloc] and [free] in the body of [realloc_impl] are bound to.
    The source calls them as <stdlib.h> declares them and defines neither;
    the binding is made when the program is linked.

    [CLibrary answer owned]: the C library's functions.  Their heap is
    outside the model: [answer] is what [malloc(size)] returns and
    [owned p] tells whether [p] is a live pointer of the library.  [free]
    of [NULL], of [answer] or of an owned pointer has no effect on the
    allocator's state; [free] of any other pointer does not return (the
    behaviour is undefined; glibc aborts). *)
Inductive binding : Type :=
| CLibrary (answer : Z) (owned : Z -> bool)
| Interposed (mm : option Z) (scribble : bool).

(** Modelled from the spec: the entry points that replace the standard
    [malloc] and [free] are not in the sources; the allocator "replaces
    the standard allocation API", so under [Interposed] [malloc(size)] is
    [malloc_impl] with an empty label (with its own answers of [mmap] and
    of the environment) and [free(ptr)] is [free_impl]. *)
Definition bound_malloc (b : binding) (h : heap) (size : Z) : heap * Z :=
  match b with
  | CLibrary answer _ => (h, answer)
  | Interposed mm scribble => malloc_impl mm scribble h size []
  end.

(** Modelled from the spec: as for [bound_malloc], the [Interposed] case
    stands for the entry point that replaces the standard [free], which
    is not in the sources. *)
Definition bound_free (b : binding) (h : heap) (ptr : Z) : option heap :=
  match b with
  | CLibrary answer owned =>
      if (ptr =? NULL) || (ptr =? answer) || owned ptr then Some h else None
  | Interposed _ _ => Some (free_impl h ptr)
  end.

(** [realloc_impl], with [malloc] and [free] bound by [b].  [None]: the
    call does not return. *)
Definition realloc_impl (b : binding) (mm : option Z) (scribble : bool)
    (h : heap) (ptr size : Z) (name : list Z) : option (heap * Z) :=
  let '(h1, new_ptr) := bound_malloc b h size in
  if new_ptr =? NULL then Some (malloc_impl mm scribble h1 size name)
  else if ptr =? NULL then Some (h1, new_ptr)
  else if size =? 0 then
    match bound_free b h1 new_ptr with
    | Some h2 => Some (h2, NULL)
    | None => None
    end
  else
    let h2 := with_mem h1 (memcpy (mem h1) new_ptr ptr size) in
    match bound_free b h2 ptr with
    | Some h3 => Some (h3, new_ptr)
    | None => None
    end.

(** ** Diagnostics *)

(** [leak_check]: the body is the single statement [return true]. *)
Definition leak_check (h : heap) : bool := true.

(** Bounded walks of the two lists, for statements about their members. *)
Fixpoint free_walk (fuel : nat) (m : memory) (f : Z) : list Z :=
  match fuel with
  | O => []
  | S k => if f =? NULL then [] else f :: free_walk k m (get_next_free m f)
  end.

Fixpoint block_walk (fuel : nat) (m : memory) (b : Z) : list Z :=
  match fuel with
  | O => []
  | S k => if b =? NULL then [] else b :: block_walk k m (get_next_block m b)
  end.

(** A null-terminated free list: [free_chain m f l] says that following
    [next_free] from [f] visits exactly the blocks of [l], then [NULL]. *)
Fixpoint free_chain (m : memory) (f : Z) (l : list Z) : Prop :=
  match l with
  | [] => f = NULL
  | x :: l' => f = x /\ x <> NULL /\ free_chain m (get_next_free m x) l'
  end.

Definition fits (m : memory) (size : Z) (b : Z) : bool :=
  size <=? real_size (get_size m b).

(** The first block of a list that is large enough, [NULL] when there is
    none: what a first-fit search of that list has to return. *)
Definition first_fit_spec (m : memory) (size : Z) (l : list Z) : Z :=
  match find (fits m size) l with
  | Some b => b
  | None => NULL
  end.

(** ** Example heaps *)

(** A heap with two released blocks: the block at 8192 (real size 164)
    heads the free list, the block at 4096 (real size 364) follows. *)
Definition two_free_heap : heap :=
  let '(h1, a) := malloc_impl (Some 4096) false initial_heap 300 [97] in
  let '(h2, b) := malloc_impl (Some 8192) false h1 100 [98] in
  free_impl (free_impl h2 a) b.

(** One free block of real size 8000 at 4096, first of its region, with
    a chain successor at 20000 (the figures of the comments in
    [split_block]). *)
Definition split_example : heap :=
  mkHeap NULL NULL NULL NULL
    (set_next_block
       (set_size (set_region (fun _ => 0) 4096 4096) 4096 8001)
       4096 20000).

(** One allocation of 8 bytes in the initial heap, mapped at 4096; then
    the heap after one and after two calls of [free_impl] on its
    pointer. *)
Definition one_alloc : heap * Z :=
  malloc_impl (Some 4096) false initial_heap 8 [].

Definition released_once : heap :=
  free_impl (fst one_alloc) (snd one_alloc).

Definition released_twice : heap :=
  free_impl released_once (snd one_alloc).

(** The figure in the comment of [merge_block]: three blocks of one
    region (at 4096), chained in address order, [b1] and [b2] free and
    [b3] used, each of real size 160; the free list is [b2 -> b1]. *)
Definition b1 : Z := 4096.
Definition b2 : Z := 4256.
Definition b3 : Z := 4416.

Definition merge_example : heap :=
  let m0 : memory := fun _ => 0 in
  let m1 := set_next_block (set_size (set_region m0 b1 b1) b1 161) b1 b2 in
  let m2 := set_prev_block
              (set_next_block (set_size (set_region m1 b2 b1) b2 161) b2 b3)
              b2 b1 in
  let m3 := set_prev_block (set_size (set_region m2 b3 b1) b3 160) b3 b2 in
  let m4 := set_prev_free (set_next_free m3 b2 b1) b1 b2 in
  mkHeap b1 b3 b2 b1 m4.

(** ** Vocabulary of the statements *)

(** Two calls of [free_impl] on the same pointer, one after the other. *)
Definition release_twice (h : heap) (ptr : Z) : heap :=
  free_impl (free_impl h ptr) ptr.

(** The four list pointers of two heaps agree. *)
Definition same_lists (h h' : heap) : Prop :=
  blist_head h' = blist_head h /\ blist_tail h' = blist_tail h /\
  free_head h' = free_head h /\ free_tail h' = free_tail h.

(** A chain neighbour that [merge_block] is documented to merge with:
    it exists, is free and is of the same region. *)
Definition mergeable (m : memory) (block neighbour : Z) : bool :=
  negb (neighbour =? NULL) && is_free m neighbour &&
  (get_region m neighbour =? get_region m block).

(** Two block addresses whose 80-byte free-block records do not overlap. *)
Definition apart (a b : Z) : Prop := a + min_size <= b \/ b + min_size <= a.

(** The blocks of a list are pairwise apart. *)
Fixpoint separated (l : list Z) : Prop :=
  match l with
  | [] => True
  | x :: l' => Forall (apart x) l' /\ separated l'
  end.

(** ** Sequences of calls *)

(** One call of the interface, with the answers of the environment it
    consumes. *)
Inductive call : Type :=
| CallMalloc (mm : option Z) (scribble : bool) (size : Z) (name : list Z)
| CallFree (ptr : Z)
| CallCalloc (mm : option Z) (scribble : bool) (nmemb size : Z) (name : list Z)
| CallRealloc (b : binding) (mm : option Z) (scribble : bool)
    (ptr size : Z) (name : list Z)
| CallSplit (block size : Z)
| CallMerge (block : Z).

(** The heap after a call; [None] when the call faults. *)
Definition step (h : heap) (c : call) : option heap :=
  match c with
  | CallMalloc mm scribble size name =>
      Some (fst (malloc_impl mm scribble h size name))
  | CallFree ptr => Some (free_impl h ptr)
  | CallCalloc mm scribble nmemb size name =>
      option_map fst (calloc_impl mm scribble h nmemb size name)
  | CallRealloc b mm scribble ptr size name =>
      option_map fst (realloc_impl b mm scribble h ptr size name)
  | CallSplit block size => Some (fst (split_block h block size))
  | CallMerge block => Some (fst (merge_block h block))
  end.

Fixpoint run (h : heap) (cs : list call) : option heap :=
  match cs with
  | [] => Some h
  | c :: cs' =>
      match step h c with
      | Some h' => run h' cs'
      | None => None
      end
  end.

(** * Properties *)

(** ** Machine integers *)

Lemma SIZE_MAX1_eq : SIZE_MAX1 = 18446744073709551616.
Proof. reflexivity. Qed.

Lemma wrap_small (x : Z) : 0 <= x < SIZE_MAX1 -> wrap x = x.
Proof. intros H. unfold wrap. apply Z.mod_small. exact H. Qed.


Lemma wrap_to_ssize (x : Z) : wrap (to_ssize x) = wrap x.
Proof.
  unfold to_ssize.
  destruct (wrap x <? 2 ^ 63).
  - unfold wrap. apply Z.mod_mod. discriminate.
  - unfold wrap.
    replace (x mod SIZE_MAX1 - SIZE_MAX1) with (x mod SIZE_MAX1 + (-1) * SIZE_MAX1) by ring.
    rewrite Z.mod_add by discriminate.
    apply Z.mod_mod. discriminate.
Qed.

Lemma wrap_plus_r (x y : Z) : wrap (x + wrap y) = wrap (x + y).
Proof. unfold wrap. apply Zplus_mod_idemp_r. Qed.

Lemma wrap_minus_r (x y : Z) : wrap (x - wrap y) = wrap (x - y).
Proof. unfold wrap. apply Zminus_mod_idemp_r. Qed.

Lemma wrap_minus_l (x y : Z) : wrap (wrap x - y) = wrap (x - y).
Proof. unfold wrap. apply Zminus_mod_idemp_l. Qed.

(** ** Memory: loads after stores *)

Lemma load8_range (m : memory) (a : Z) : 0 <= load8 m a < 256.
Proof. unfold load8. apply Z.mod_pos_bound. reflexivity. Qed.

Lemma load_le_range (n : nat) :
  forall (m : memory) (a : Z), 0 <= load_le n m a < 256 ^ Z.of_nat n.
Proof.
  induction n as [|k IH]; intros m a.
  - simpl. lia.
  - rewrite Nat2Z.inj_succ, Z.pow_succ_r by lia.
    cbn [load_le].
    pose proof (load8_range m a). pose proof (IH m (a + 1)). lia.
Qed.

Lemma load64_range (m : memory) (a : Z) : 0 <= load64 m a < SIZE_MAX1.
Proof. exact (load_le_range 8 m a). Qed.

Lemma store_le_outside (n : nat) :
  forall (m : memory) (a v x : Z),
    x < a \/ a + Z.of_nat n <= x -> store_le n m a v x = m x.
Proof.
  induction n as [|k IH]; intros m a v x H.
  - reflexivity.
  - cbn [store_le]. rewrite IH by lia.
    unfold store8. destruct (Z.eqb_spec x a); [lia | reflexivity].
Qed.

Lemma load_le_ext (n : nat) :
  forall (m m' : memory) (a : Z),
    (forall x, a <= x < a + Z.of_nat n -> m x = m' x) ->
    load_le n m a = load_le n m' a.
Proof.
  induction n as [|k IH]; intros m m' a H.
  - reflexivity.
  - cbn [load_le]. unfold load8.
    rewrite (H a) by lia.
    rewrite (IH m m' (a + 1)); [reflexivity|].
    intros x Hx. apply H. lia.
Qed.

Lemma load_le_store_le_same (n : nat) :
  forall (m : memory) (a v : Z),
    load_le n (store_le n m a v) a = v mod 256 ^ Z.of_nat n.
Proof.
  induction n as [|k IH]; intros m a v.
  - simpl. symmetry. apply Z.mod_1_r.
  - cbn [load_le store_le].
    rewrite IH.
    unfold load8. rewrite store_le_outside by lia.
    unfold store8. rewrite Z.eqb_refl.
    rewrite Z.mod_mod by discriminate.
    rewrite Nat2Z.inj_succ, Z.pow_succ_r by lia.
    symmetry. apply Z.rem_mul_r; [discriminate | lia].
Qed.

Lemma load64_store64_same (m : memory) (a v : Z) :
  load64 (store64 m a v) a = wrap v.
Proof. exact (load_le_store_le_same 8 m a v). Qed.

Lemma load64_store64_other (m : memory) (a a' v : Z) :
  a' + 8 <= a \/ a + 8 <= a' ->
  load64 (store64 m a v) a' = load64 m a'.
Proof.
  intros H. unfold load64, store64.
  apply load_le_ext. intros x Hx.
  apply store_le_outside. change (Z.of_nat 8) with 8 in *. lia.
Qed.

Lemma store64_outside (m : memory) (a v x : Z) :
  x < a \/ a + 8 <= x -> store64 m a v x = m x.
Proof. intros H. exact (store_le_outside 8 m a v x H). Qed.

Lemma load64_ext (m m' : memory) (a : Z) :
  (forall x, a <= x < a + 8 -> m x = m' x) -> load64 m a = load64 m' a.
Proof. intros H. exact (load_le_ext 8 m m' a H). Qed.

(** ** The flag bit *)

Lemma not_flag_eq : not_flag = SIZE_MAX1 - 2.
Proof. reflexivity. Qed.

Lemma not_flag_shift : not_flag = Z.shiftl (Z.ones 63) 1.
Proof. reflexivity. Qed.

Lemma clear_bit0_shift (s : Z) : s - s mod 2 = Z.shiftl (Z.shiftr s 1) 1.
Proof.
  rewrite Z.shiftl_mul_pow2, Z.shiftr_div_pow2 by lia.
  change (2 ^ 1) with 2.
  pose proof (Z.div_mod s 2). lia.
Qed.

Lemma real_size_spec (s : Z) :
  0 <= s < SIZE_MAX1 -> real_size s = s - s mod 2.
Proof.
  intros Hs. unfold real_size.
  rewrite clear_bit0_shift, not_flag_shift.
  apply Z.bits_inj'. intros n Hn.
  rewrite Z.land_spec, !Z.shiftl_spec by lia.
  destruct (Z.eq_dec n 0) as [->|Hn0].
  - rewrite !(Z.testbit_neg_r _ (0 - 1)) by lia. apply andb_false_r.
  - rewrite Z.shiftr_spec by lia.
    replace (n - 1 + 1) with n by lia.
    destruct (Z_lt_dec n 64) as [Hlt|Hge].
    + rewrite Z.ones_spec_low by lia. apply andb_true_r.
    + rewrite Z.ones_spec_high by lia.
      rewrite andb_false_r.
      rewrite <- (wrap_small s Hs). unfold wrap, SIZE_MAX1.
      symmetry. apply Z.mod_pow2_bits_high. lia.
Qed.

Lemma real_size_even (s : Z) :
  0 <= s < SIZE_MAX1 -> s mod 2 = 0 -> real_size s = s.
Proof. intros Hs He. rewrite real_size_spec by exact Hs. lia. Qed.

Lemma real_size_odd (s : Z) :
  0 <= s < SIZE_MAX1 -> s mod 2 = 1 -> real_size s = s - 1.
Proof. intros Hs He. rewrite real_size_spec by exact Hs. lia. Qed.

Lemma land_1_mod (s : Z) : Z.land s 1 = s mod 2.
Proof. change 1 with (Z.ones 1) at 1. rewrite Z.land_ones by lia. reflexivity. Qed.

Lemma lor_1_spec (s : Z) : 0 <= s -> Z.lor s 1 = s - s mod 2 + 1.
Proof.
  intros Hs.
  rewrite clear_bit0_shift.
  apply Z.bits_inj'. intros n Hn.
  rewrite Z.lor_spec.
  replace (Z.shiftl (Z.shiftr s 1) 1 + 1) with (2 * Z.shiftr s 1 + 1).
  2:{ rewrite Z.shiftl_mul_pow2 by lia. change (2 ^ 1) with 2. lia. }
  destruct (Z.eq_dec n 0) as [->|Hn0].
  - rewrite Z.testbit_odd_0. apply orb_true_r.
  - assert (E : Z.testbit (2 * Z.shiftr s 1 + 1) n = Z.testbit (Z.shiftr s 1) (n - 1)).
    { replace n with (Z.succ (n - 1)) at 1 by lia.
      apply Z.testbit_odd_succ. lia. }
    assert (E1 : Z.testbit 1 n = false).
    { apply Z.bits_above_log2; [lia | cbn; lia]. }
    rewrite E, E1, Z.shiftr_spec by lia.
    replace (n - 1 + 1) with n by lia.
    apply orb_false_r.
Qed.

(** ** Alignment *)

Lemma align_cases (n a : Z) :
  0 <= n < SIZE_MAX1 -> 0 < a ->
  align n a = if n mod a =? 0 then n else wrap (n - n mod a + a).
Proof.
  intros Hn Ha. unfold align.
  pose proof (Z.div_mod n a ltac:(lia)) as Hdm.
  pose proof (Z.mod_pos_bound n a Ha) as Hr.
  assert (E : n / a * a = n - n mod a) by (rewrite Z.mod_eq by lia; ring).
  rewrite E.
  pose proof (Z.mod_le n a ltac:(lia) Ha) as Hle.
  rewrite (wrap_small (n - n mod a)) by lia.
  destruct (Z.eqb_spec (n mod a) 0) as [H0|H0]; cbn [negb].
  - lia.
  - reflexivity.
Qed.

(** [align] at the top of the [size_t] range: the addition wraps. *)
Lemma align_wraps_at_max : align (SIZE_MAX1 - 1) 16 = 0.
Proof. reflexivity. Qed.

(** C5, at the input [n = 2^64 - 1], [a = 16]: the result of [align] is
    0, which is not [>= n]. *)
Lemma align_not_above_input :
  0 <= SIZE_MAX1 - 1 < SIZE_MAX1 /\ 0 < 16 /\
  ~ (SIZE_MAX1 - 1 <= align (SIZE_MAX1 - 1) 16).
Proof.
  rewrite align_wraps_at_max. rewrite SIZE_MAX1_eq. lia.
Qed.

Lemma align_bounds (n a M : Z) :
  0 <= n < SIZE_MAX1 -> 0 < a ->
  (a | M) -> n <= M < SIZE_MAX1 ->
  (a | align n a) /\ n <= align n a <= M.
Proof.
  intros Hn Ha [c Hc] HM.
  rewrite align_cases by assumption.
  pose proof (Z.div_mod n a ltac:(lia)) as Hdm.
  pose proof (Z.mod_pos_bound n a Ha) as Hr.
  destruct (Z.eqb_spec (n mod a) 0) as [H0|H0].
  - split; [exists (n / a)|]; lia.
  - assert (Hq : n / a < c) by nia.
    assert (Hup : n - n mod a + a <= M) by nia.
    rewrite wrap_small by lia.
    split; [exists (n / a + 1)|]; lia.
Qed.

Lemma align_exact (n a : Z) :
  0 <= n < SIZE_MAX1 -> 0 < a -> (a | n) -> align n a = n.
Proof.
  intros Hn Ha [d Hd].
  rewrite align_cases by assumption.
  rewrite Hd at 1. rewrite Z.mod_mul by lia. reflexivity.
Qed.

Lemma align16_multiple (n : Z) :
  0 <= n < SIZE_MAX1 -> align n ALIGNMENT mod 16 = 0.
Proof.
  intros Hn. unfold ALIGNMENT.
  rewrite align_cases by lia.
  pose proof (Z.div_mod n 16 ltac:(lia)) as Hdm.
  destruct (Z.eqb_spec (n mod 16) 0) as [H0|H0]; [exact H0|].
  unfold wrap.
  rewrite Z.mod_mod_divide by (exists (2 ^ 60); reflexivity).
  replace (n - n mod 16 + 16) with ((n / 16 + 1) * 16) by lia.
  apply Z.mod_mul. lia.
Qed.

Lemma align16_above (n : Z) :
  0 <= n <= SIZE_MAX1 - 16 -> n <= align n ALIGNMENT.
Proof.
  intros Hn. unfold ALIGNMENT.
  pose proof (Z.div_mod n 16 ltac:(lia)) as Hdm.
  pose proof (Z.mod_pos_bound n 16 ltac:(lia)) as Hr.
  rewrite SIZE_MAX1_eq in Hn.
  apply (align_bounds n 16 ((n + 15) / 16 * 16)).
  - rewrite SIZE_MAX1_eq. lia.
  - lia.
  - exists ((n + 15) / 16). reflexivity.
  - rewrite SIZE_MAX1_eq.
    pose proof (Z.div_mod (n + 15) 16 ltac:(lia)).
    pose proof (Z.mod_pos_bound (n + 15) 16 ltac:(lia)).
    lia.
Qed.

(** C5 (amended): for a [size_t] value [n] and a positive alignment
    [a], whenever some multiple [M] of [a] with [n <= M] is representable
    (below 2^64), [align n a] is a multiple of [a], is at least [n] and
    is at most [M], that is, it is the smallest multiple of [a] that is
    [>= n]; an exact multiple is returned unchanged (so
    [align (k * 16) 16 = k * 16]); [align n 16 mod 16 = 0] for every
    [n]; and [align n 16 >= n] for every [n <= 2^64 - 16]. *)
Theorem align_smallest_multiple (n a : Z) :
  0 <= n < SIZE_MAX1 -> 0 < a ->
  (forall M, (a | M) -> n <= M < SIZE_MAX1 ->
             (a | align n a) /\ n <= align n a <= M) /\
  ((a | n) -> align n a = n) /\
  align n 16 mod 16 = 0 /\
  (n <= SIZE_MAX1 - 16 -> n <= align n 16).
Proof.
  intros Hn Ha.
  split; [|split; [|split]].
  - intros M HM Hb. apply align_bounds; assumption.
  - apply align_exact; assumption.
  - apply (align16_multiple n Hn).
  - intros Hle. apply align16_above. lia.
Qed.

Lemma align_smallest_multiple_witness :
  ((16 | align 17 16) /\ 17 <= align 17 16 <= 32) /\
  align (3 * 16) 16 = 3 * 16.
Proof.
  assert (H17 : 0 <= 17 < SIZE_MAX1) by (rewrite SIZE_MAX1_eq; lia).
  assert (H48 : 0 <= 3 * 16 < SIZE_MAX1) by (rewrite SIZE_MAX1_eq; lia).
  assert (H16 : 0 < 16) by lia.
  split.
  - destruct (align_smallest_multiple 17 16 H17 H16) as [H _].
    apply (H 32).
    + exists 2. reflexivity.
    + rewrite SIZE_MAX1_eq. lia.
  - destruct (align_smallest_multiple (3 * 16) 16 H48 H16) as (_ & H & _).
    apply H. exists 3. reflexivity.
Defined.

(** ** First fit *)

Section FirstFit.

Variable m : memory.
Variable size : Z.

Lemma first_fit_loop_chain :
  forall (l : list Z) (f : Z) (fuel : nat),
    free_chain m f l ->
    (length l < fuel)%nat ->
    first_fit_loop fuel m f size = Some (first_fit_spec m size l).
Proof.
  induction l as [|x l IH]; intros f fuel Hc Hf.
  - cbn in Hc. subst f.
    destruct fuel as [|k]; [inversion Hf|].
    reflexivity.
  - destruct Hc as (-> & Hx & Hc).
    destruct fuel as [|k]; [inversion Hf|].
    cbn [first_fit_loop].
    destruct (Z.eqb_spec x NULL) as [E|_]; [contradiction|].
    unfold first_fit_spec. cbn [find]. unfold fits at 1.
    destruct (size <=? real_size (get_size m x)).
    + reflexivity.
    + apply IH; [exact Hc|]. cbn [length] in Hf. lia.
Qed.

(** The returned block splits the list: everything before it is too
    small, and it is large enough. *)
Lemma first_fit_spec_first (l : list Z) :
  Forall (fun x => x <> NULL) l ->
  (first_fit_spec m size l = NULL /\ Forall (fun x => fits m size x = false) l) \/
  (exists l1 l2,
      l = l1 ++ first_fit_spec m size l :: l2 /\
      Forall (fun x => fits m size x = false) l1 /\
      fits m size (first_fit_spec m size l) = true).
Proof.
  induction l as [|x l IH]; intros Hnz.
  - left. split; [reflexivity | constructor].
  - unfold first_fit_spec. cbn [find].
    destruct (fits m size x) eqn:Ex.
    + right. exists [], l. repeat split; [constructor | exact Ex].
    + inversion Hnz as [|? ? _ Hl]; subst.
      destruct (IH Hl) as [[E F]|(l1 & l2 & E & F & G)].
      * left. split; [exact E | constructor; assumption].
      * right. exists (x :: l1), l2.
        split; [cbn; f_equal; exact E|].
        split; [constructor; assumption | exact G].
Qed.

End FirstFit.

Lemma free_chain_nonnull (m : memory) :
  forall (l : list Z) (f : Z), free_chain m f l -> Forall (fun x => x <> NULL) l.
Proof.
  induction l as [|x l IH]; intros f Hc.
  - constructor.
  - destruct Hc as (_ & Hx & Hc). constructor; [exact Hx | exact (IH _ Hc)].
Qed.

(** C6: when the free list is the null-terminated chain [l] starting at
    [free_head], [first_fit] (run with more fuel than the list is long)
    terminates and returns the first block of [l], in list order from the
    head, whose real size is at least the request; it returns [NULL] when
    no block of the list is large enough. *)
Theorem first_fit_returns_first (h : heap) (size : Z) (l : list Z) (fuel : nat) :
  free_chain (mem h) (free_head h) l ->
  (length l < fuel)%nat ->
  first_fit fuel h size = Some (first_fit_spec (mem h) size l) /\
  ((first_fit_spec (mem h) size l = NULL /\
    Forall (fun x => fits (mem h) size x = false) l) \/
   (exists l1 l2,
       l = l1 ++ first_fit_spec (mem h) size l :: l2 /\
       Forall (fun x => fits (mem h) size x = false) l1 /\
       fits (mem h) size (first_fit_spec (mem h) size l) = true)).
Proof.
  intros Hc Hf. split.
  - unfold first_fit. apply first_fit_loop_chain; assumption.
  - apply (first_fit_spec_first (mem h) size l).
    exact (free_chain_nonnull _ _ _ Hc).
Qed.

Lemma first_fit_returns_first_witness :
  first_fit 3 two_free_heap 200 = Some 4096.
Proof.
  pose proof (first_fit_returns_first two_free_heap 200 [8192; 4096] 3) as H.
  destruct H as [H _].
  - cbn [free_chain]. repeat split; try discriminate; vm_compute; reflexivity.
  - cbn. lia.
  - exact H.
Defined.

(** ** Splitting *)

Ltac field_offsets :=
  unfold get_region, get_size, get_next_block, get_prev_block,
    get_next_free, get_prev_free,
    set_region, set_size, set_next_block, set_prev_block,
    set_next_free, set_prev_free,
    off_region, off_size, off_next_block, off_prev_block,
    off_next_free, off_prev_free in *.

Ltac load_store :=
  repeat first
    [ rewrite load64_store64_same
    | rewrite load64_store64_other by lia ].

Lemma wrap_add_to_ssize (x c : Z) : wrap (to_ssize x + c) = wrap (x + c).
Proof.
  rewrite (Z.add_comm (to_ssize x)), <- wrap_plus_r, wrap_to_ssize, wrap_plus_r.
  f_equal. ring.
Qed.

Lemma wrap_sub_to_ssize (x y : Z) : wrap (x - to_ssize y) = wrap (x - y).
Proof. rewrite <- wrap_minus_r, wrap_to_ssize, wrap_minus_r. reflexivity. Qed.

Lemma is_free_odd (m : memory) (b : Z) :
  is_free m b = true -> get_size m b mod 2 = 1.
Proof.
  unfold is_free. rewrite land_1_mod. intros H.
  apply Z.eqb_eq in H. exact H.
Qed.

Lemma is_free_real_size (m : memory) (b : Z) :
  is_free m b = true -> real_size (get_size m b) = get_size m b - 1.
Proof.
  intros H. apply real_size_odd.
  - apply load64_range.
  - apply is_free_odd. exact H.
Qed.

Section SplitBlock.

Variable h : heap.
Variables block size : Z.

Let m := mem h.
Let block_size := real_size (get_size m block).
Let next := get_next_block m block.
Let tail := block + block_size - size.

Hypothesis block_nonnull : 0 < block.
Hypothesis block_in_space : block + block_size < SIZE_MAX1.
Hypothesis block_free : is_free m block = true.
Hypothesis next_nonnull : next <> NULL.
Hypothesis next_outside : next + sizeof_mem_block <= block \/ block + block_size <= next.
Hypothesis tail_min : min_size <= size.
Hypothesis tail_even : size mod 2 = 0.
Hypothesis block_large : size + min_size <= block_size.

(* The memories after each store of the successful path. *)
Let m1 := set_next_block m tail next.
Let m2 := set_next_block m1 block tail.
Let m3 := set_prev_block m2 tail block.
Let m4 := set_prev_block m3 next tail.
Let new_size := to_ssize (get_size m block - size).
Let m5 := set_size m4 block new_size.
Let m6 := set_size m5 tail block_size.
Let m7 := set_size m6 tail (to_ssize (block_size - new_size) + 2).

Lemma split_raw_range : 0 <= get_size m block < SIZE_MAX1.
Proof. apply load64_range. Qed.

Lemma split_next_range : 0 <= next < SIZE_MAX1.
Proof. apply load64_range. Qed.

Lemma split_real : block_size = get_size m block - 1.
Proof. apply is_free_real_size. exact block_free. Qed.

Lemma split_tail_range : block + min_size <= tail /\ tail + size < SIZE_MAX1.
Proof. unfold tail, min_size in *. lia. Qed.

Ltac split_facts :=
  pose proof split_raw_range as Hraw;
  pose proof split_next_range as Hnext;
  pose proof split_real as Hreal;
  pose proof split_tail_range as Htail;
  pose proof next_outside as Hout;
  pose proof tail_min as Hmin;
  pose proof block_large as Hlarge;
  pose proof block_nonnull as Hpos;
  unfold min_size, sizeof_mem_block in *;
  assert (Htl : tail = block + block_size - size) by reflexivity;
  clearbody tail block_size next.

Lemma split_m3_next : get_next_block m3 tail = next.
Proof.
  unfold m3, m2, m1. split_facts. field_offsets. load_store.
  apply wrap_small. exact Hnext.
Qed.

Lemma split_m4_size : get_size m4 block = get_size m block.
Proof.
  unfold m4, m3, m2, m1. split_facts. field_offsets. load_store. reflexivity.
Qed.

Lemma split_m6_size : get_size m6 tail = block_size.
Proof.
  unfold m6. split_facts. field_offsets. load_store.
  apply wrap_small. lia.
Qed.

Lemma split_block_runs : split_block h block size = (with_mem h m7, tail).
Proof.
  pose proof split_m3_next as H3. pose proof split_m4_size as H4.
  pose proof split_m6_size as H6.
  pose proof split_tail_range as Htail. pose proof block_nonnull as Hpos.
  pose proof tail_min as Hmin. pose proof block_large as Hlarge.
  assert (Hw : wrap (block + block_size - size) = tail).
  { apply wrap_small. unfold tail, min_size in *. lia. }
  unfold split_block. fold m. fold block_size. fold next.
  destruct (Z.eqb_spec block NULL) as [E|_]; [unfold NULL in E; lia|].
  destruct (Z.ltb_spec size min_size) as [E|_]; [lia|].
  cbn [orb].
  destruct (Z.ltb_spec block_size min_size) as [E|_]; [unfold min_size in *; lia|].
  rewrite block_free. cbn [negb].
  destruct (Z.eqb_spec next NULL) as [E|_]; [exact (False_ind _ (next_nonnull E))|].
  rewrite Hw.
  fold m1. fold m2. fold m3. rewrite H3. fold m4. rewrite H4.
  fold new_size. fold m5. fold m6. rewrite H6. fold m7.
  reflexivity.
Qed.

Lemma split_m7_block_size : get_size m7 block = get_size m block - size.
Proof.
  unfold m7, m6, m5, new_size. split_facts. field_offsets. load_store.
  rewrite wrap_to_ssize. apply wrap_small. lia.
Qed.

Lemma split_m7_tail_size : get_size m7 tail = size + 1.
Proof.
  unfold m7, new_size. split_facts. field_offsets. load_store.
  rewrite wrap_add_to_ssize.
  replace (block_size - to_ssize (load64 m (block + 40) - size) + 2)
    with (block_size + 2 - to_ssize (load64 m (block + 40) - size)) by ring.
  rewrite wrap_sub_to_ssize.
  replace (block_size + 2 - (load64 m (block + 40) - size)) with (size + 1) by lia.
  apply wrap_small. lia.
Qed.

Lemma split_m7_tail_next : get_next_block m7 tail = next.
Proof.
  unfold m7, m6, m5, m4, m3, m2, m1. split_facts. field_offsets. load_store.
  apply wrap_small. exact Hnext.
Qed.

Lemma split_m7_block_next : get_next_block m7 block = tail.
Proof.
  unfold m7, m6, m5, m4, m3, m2, m1. split_facts. field_offsets. load_store.
  apply wrap_small. lia.
Qed.

Lemma split_m7_tail_prev : get_prev_block m7 tail = block.
Proof.
  unfold m7, m6, m5, m4, m3, m2, m1. split_facts. field_offsets. load_store.
  apply wrap_small. lia.
Qed.

Lemma split_m7_next_prev : get_prev_block m7 next = tail.
Proof.
  unfold m7, m6, m5, m4, m3, m2, m1. split_facts. field_offsets. load_store.
  apply wrap_small. lia.
Qed.

(** The region field of the tail is the one field of its header that
    is read back as it was found. *)
Lemma split_m7_tail_region : get_region m7 tail = get_region m tail.
Proof.
  unfold m7, m6, m5, m4, m3, m2, m1. split_facts. field_offsets. load_store.
  reflexivity.
Qed.

End SplitBlock.

(** A tail below [min_size] is refused even when the block is large
    enough for it: the block of real size 8000 is not split for a tail of
    16 bytes, and the heap is left as it was. *)
Lemma split_block_small_tail_refused :
  is_free (mem split_example) 4096 = true /\
  get_next_block (mem split_example) 4096 <> NULL /\
  16 + min_size <= real_size (get_size (mem split_example) 4096) /\
  split_block split_example 4096 16 = (split_example, NULL).
Proof.
  split; [vm_compute; reflexivity|].
  split; [vm_compute; discriminate|].
  split; [vm_compute; discriminate|].
  reflexivity.
Qed.

(** An odd tail size is not split into consistent sizes: the result
    fields decode to 7920 and 82, which add up to 8002. *)
Lemma split_block_odd_tail_sizes :
  let h' := fst (split_block split_example 4096 81) in
  let tail := snd (split_block split_example 4096 81) in
  real_size (get_size (mem h') 4096) = 7920 /\
  real_size (get_size (mem h') tail) = 82.
Proof. split; vm_compute; reflexivity. Qed.

(** The tail of a split does not receive the region of the block: the
    assignment is placed after both [return]s. *)
Lemma split_block_tail_region_not_set :
  let h' := fst (split_block split_example 4096 736) in
  let tail := snd (split_block split_example 4096 736) in
  get_region (mem split_example) 4096 = 4096 /\
  get_region (mem h') tail = 0.
Proof. split; vm_compute; reflexivity. Qed.

(** C1: on the free block of real size 8000 at 4096, with a chain
    successor at 20000, and the tail size 736 (the block and the tail both
    keep at least [min_size]), [split_block] succeeds and returns the
    tail at 11360; the tail's chain successor is the block's old
    successor, the block's chain successor is the tail and the two real
    sizes add up to 8000.  But the tail does not inherit the region of
    the block: the block's region is 4096 and the tail's region field
    reads 0, what the memory held, because the assignment
    [new_block->region = block->region] stands after both [return]s and
    is never reached. *)
Theorem split_block_region_not_inherited :
  is_free (mem split_example) 4096 = true /\
  get_next_block (mem split_example) 4096 = 20000 /\
  736 + min_size <= real_size (get_size (mem split_example) 4096) /\
  snd (split_block split_example 4096 736) = 11360 /\
  get_next_block (mem (fst (split_block split_example 4096 736))) 11360 = 20000 /\
  get_next_block (mem (fst (split_block split_example 4096 736))) 4096 = 11360 /\
  real_size (get_size (mem (fst (split_block split_example 4096 736))) 4096)
  + real_size (get_size (mem (fst (split_block split_example 4096 736))) 11360)
    = 8000 /\
  get_region (mem split_example) 4096 = 4096 /\
  get_region (mem (fst (split_block split_example 4096 736))) 11360 = 0.
Proof.
  split; [vm_compute; reflexivity|].
  split; [vm_compute; reflexivity|].
  split; [vm_compute; discriminate|].
  repeat split; vm_compute; reflexivity.
Qed.

(** What a split does when it goes through: for every free block
    [block] with a non-null chain
    successor whose header lies outside the block, an even tail size of
    at least [min_size] and a real size of at least the tail size plus
    [min_size], [split_block] succeeds: it returns the tail at
    [block + real size - size]; afterwards the tail's chain successor is
    the block's old successor, the block's chain successor is the tail,
    and the real sizes of block and tail are [real size - size] and
    [size], so that they add up to the block's original real size. *)
Theorem split_block_success (h : heap) (block size : Z) :
  0 < block ->
  block + real_size (get_size (mem h) block) < SIZE_MAX1 ->
  is_free (mem h) block = true ->
  get_next_block (mem h) block <> NULL ->
  get_next_block (mem h) block + sizeof_mem_block <= block \/
    block + real_size (get_size (mem h) block) <= get_next_block (mem h) block ->
  min_size <= size ->
  size mod 2 = 0 ->
  size + min_size <= real_size (get_size (mem h) block) ->
  snd (split_block h block size) <> NULL /\
  snd (split_block h block size) = block + real_size (get_size (mem h) block) - size /\
  get_next_block (mem (fst (split_block h block size))) (snd (split_block h block size))
    = get_next_block (mem h) block /\
  get_next_block (mem (fst (split_block h block size))) block
    = snd (split_block h block size) /\
  real_size (get_size (mem (fst (split_block h block size))) block)
    = real_size (get_size (mem h) block) - size /\
  real_size (get_size (mem (fst (split_block h block size))) (snd (split_block h block size)))
    = size /\
  real_size (get_size (mem (fst (split_block h block size))) block)
  + real_size (get_size (mem (fst (split_block h block size))) (snd (split_block h block size)))
    = real_size (get_size (mem h) block).
Proof.
  intros Hpos Hsp Hfree Hnn Hout Hmin Heven Hlarge.
  pose proof (load64_range (mem h) (block + off_size)) as Hraw.
  fold (get_size (mem h) block) in Hraw.
  pose proof (is_free_real_size _ _ Hfree) as Hreal.
  pose proof (is_free_odd _ _ Hfree) as Hodd.
  rewrite (split_block_runs h block size Hpos Hsp Hfree Hnn Hout Hmin Hlarge).
  cbn [fst snd mem with_mem].
  rewrite (split_m7_tail_next h block size Hpos Hsp Hfree Hout Hmin Hlarge).
  rewrite (split_m7_block_next h block size Hpos Hsp Hfree Hout Hmin Hlarge).
  rewrite (split_m7_block_size h block size Hpos Hsp Hfree Hout Hmin Hlarge).
  rewrite (split_m7_tail_size h block size Hpos Hsp Hfree Hout Hmin Hlarge).
  unfold min_size in *.
  assert (E1 : real_size (get_size (mem h) block - size)
               = real_size (get_size (mem h) block) - size).
  { rewrite real_size_odd.
    - lia.
    - lia.
    - rewrite Zminus_mod, Hodd, Heven. reflexivity. }
  assert (E2 : real_size (size + 1) = size).
  { rewrite real_size_odd.
    - lia.
    - lia.
    - rewrite Zplus_mod, Heven. reflexivity. }
  rewrite E1, E2.
  repeat split; try reflexivity; unfold NULL; lia.
Qed.

Lemma split_block_success_witness :
  snd (split_block split_example 4096 736) = 4096 + 8000 - 736 /\
  get_next_block (mem (fst (split_block split_example 4096 736))) 4096
    = snd (split_block split_example 4096 736).
Proof.
  assert (H8000 : real_size (get_size (mem split_example) 4096) = 8000)
    by (vm_compute; reflexivity).
  assert (H20000 : get_next_block (mem split_example) 4096 = 20000)
    by (vm_compute; reflexivity).
  destruct (split_block_success split_example 4096 736) as (_ & H1 & _ & H2 & _).
  - lia.
  - rewrite H8000. vm_compute. reflexivity.
  - vm_compute. reflexivity.
  - rewrite H20000. discriminate.
  - rewrite H20000, H8000. right. vm_compute. discriminate.
  - vm_compute. discriminate.
  - reflexivity.
  - rewrite H8000. vm_compute. discriminate.
  - rewrite H8000 in H1. split; [exact H1 | exact H2].
Defined.

(** ** Releasing *)

Lemma set_free_is_free (m : memory) (b : Z) : is_free (set_free m b) b = true.
Proof.
  unfold is_free, set_free.
  pose proof (load64_range m (b + off_size)) as Hr.
  fold (get_size m b) in Hr.
  assert (Hv : wrap (Z.lor (get_size m b) 1) = Z.lor (get_size m b) 1).
  { apply wrap_small. rewrite lor_1_spec by lia.
    pose proof (Z.mod_pos_bound (get_size m b) 2 ltac:(lia)) as Hm.
    assert (Hc : get_size m b mod 2 = 0 \/ get_size m b mod 2 = 1) by lia.
    destruct Hc as [Hc|Hc]; rewrite Hc; [|lia].
    assert (get_size m b <> SIZE_MAX1 - 1).
    { intros E. rewrite E in Hc. vm_compute in Hc. discriminate. }
    lia. }
  field_offsets. load_store.
  rewrite Hv. rewrite land_1_mod, lor_1_spec by lia.
  replace (load64 m (b + 40) - load64 m (b + 40) mod 2 + 1)
    with (1 + (load64 m (b + 40) / 2) * 2).
  2:{ pose proof (Z.div_mod (load64 m (b + 40)) 2 ltac:(lia)). lia. }
  rewrite Z.mod_add by lia. reflexivity.
Qed.

Lemma is_free_frame (m m' : memory) (b : Z) :
  (forall x, b + off_size <= x < b + off_size + 8 -> m' x = m x) ->
  is_free m' b = is_free m b.
Proof.
  intros H. unfold is_free, get_size.
  rewrite (load64_ext m' m) by exact H. reflexivity.
Qed.

Lemma add_free_head (h : heap) (b : Z) : free_head (add_free h b) = b.
Proof.
  unfold add_free.
  destruct ((free_head h =? NULL) && (free_tail h =? NULL)); reflexivity.
Qed.

Lemma add_free_relink (h : heap) (b : Z) :
  0 < b < SIZE_MAX1 ->
  free_head h = b ->
  free_head (add_free h b) = b /\
  is_free (mem (add_free h b)) b = true /\
  get_next_free (mem (add_free h b)) b = b /\
  get_prev_free (mem (add_free h b)) b = b.
Proof.
  intros Hb Hh.
  split; [apply add_free_head|].
  unfold add_free. rewrite Hh.
  destruct (Z.eqb_spec b NULL) as [E|_]; [unfold NULL in E; lia|].
  cbn [andb mem].
  split; [|split].
  - rewrite <- (set_free_is_free (mem h) b).
    apply is_free_frame. intros x Hx.
    field_offsets.
    rewrite !store64_outside by lia. reflexivity.
  - field_offsets. load_store. apply wrap_small. lia.
  - field_offsets. load_store. apply wrap_small. lia.
Qed.

Lemma free_walk_self_loop (m : memory) (b : Z) :
  b <> NULL -> get_next_free m b = b ->
  forall n, free_walk n m b = repeat b n.
Proof.
  intros Hb Hn. induction n as [|n IH].
  - reflexivity.
  - cbn [free_walk repeat].
    destruct (Z.eqb_spec b NULL) as [E|_]; [contradiction|].
    rewrite Hn, IH. reflexivity.
Qed.

(** C3, at the pointer of an 8-byte allocation in the initial heap:
    after the first release the free list holds the block once; the
    second release is carried out like the first and the block then
    follows itself in the free list. *)
Lemma double_release_not_detected :
  snd one_alloc = 4160 /\
  free_walk 3 (mem released_once) (free_head released_once) = [4096] /\
  free_walk 3 (mem released_twice) (free_head released_twice) = [4096; 4096; 4096] /\
  count_occ Z.eq_dec (free_walk 3 (mem released_twice) (free_head released_twice)) 4096
    <> 1%nat.
Proof.
  split; [vm_compute; reflexivity|].
  split; [vm_compute; reflexivity|].
  split; [vm_compute; reflexivity|].
  vm_compute. discriminate.
Qed.

(** C3 (amended): [free_impl] has no check for a block that is already
    free.  For every pointer [ptr] to a payload (so for every pointer
    returned by [malloc_impl]), two consecutive releases of [ptr] both
    link the block: afterwards the block is flagged free, heads the free
    list and is its own [next_free] and [prev_free], so a walk of the
    free list from its head meets the block at every step, not exactly
    once. *)
Theorem release_twice_relinks (h : heap) (ptr : Z) :
  sizeof_mem_block < ptr < SIZE_MAX1 ->
  free_head (release_twice h ptr) = ptr - sizeof_mem_block /\
  is_free (mem (release_twice h ptr)) (ptr - sizeof_mem_block) = true /\
  get_next_free (mem (release_twice h ptr)) (ptr - sizeof_mem_block)
    = ptr - sizeof_mem_block /\
  get_prev_free (mem (release_twice h ptr)) (ptr - sizeof_mem_block)
    = ptr - sizeof_mem_block /\
  forall n, free_walk n (mem (release_twice h ptr)) (free_head (release_twice h ptr))
            = repeat (ptr - sizeof_mem_block) n.
Proof.
  unfold sizeof_mem_block. intros Hp.
  unfold release_twice, free_impl.
  destruct (Z.eqb_spec ptr NULL) as [E|_]; [unfold NULL in E; lia|].
  unfold sizeof_mem_block.
  rewrite (wrap_small (ptr - 64)) by lia.
  destruct (add_free_relink (add_free h (ptr - 64)) (ptr - 64)) as (H1 & H2 & H3 & H4).
  - lia.
  - apply add_free_head.
  - repeat split; try assumption.
    intros n. rewrite H1.
    apply free_walk_self_loop; [unfold NULL; lia | exact H3].
Qed.

Lemma release_twice_relinks_witness :
  free_head (release_twice (fst one_alloc) 4160) = 4096 /\
  get_next_free (mem (release_twice (fst one_alloc) 4160)) 4096 = 4096.
Proof.
  destruct (release_twice_relinks (fst one_alloc) 4160) as (H1 & _ & H3 & _).
  - rewrite SIZE_MAX1_eq. unfold sizeof_mem_block. lia.
  - split; [exact H1 | exact H3].
Defined.

(** On the self-linked list that two releases leave behind, the search
    for a size that the block does not have runs out of every bound: the
    loop of [first_fit] does not end there. *)
Lemma first_fit_loop_self_loop (m : memory) (b size : Z) :
  b <> NULL -> get_next_free m b = b -> fits m size b = false ->
  forall fuel, first_fit_loop fuel m b size = None.
Proof.
  intros Hb Hn Hf. induction fuel as [|k IH].
  - reflexivity.
  - cbn [first_fit_loop].
    destruct (Z.eqb_spec b NULL) as [E|_]; [contradiction|].
    unfold fits in Hf. rewrite Hf, Hn. exact IH.
Qed.

Lemma first_fit_after_double_release (fuel : nat) :
  first_fit fuel released_twice 1000 = None.
Proof.
  unfold first_fit.
  apply first_fit_loop_self_loop; vm_compute; congruence.
Qed.

(** ** Allocation *)

Lemma with_mem_same_lists (h : heap) (m : memory) : same_lists h (with_mem h m).
Proof. repeat split. Qed.

Lemma same_lists_refl (h : heap) : same_lists h h.
Proof. repeat split. Qed.

Lemma same_lists_trans (h1 h2 h3 : heap) :
  same_lists h1 h2 -> same_lists h2 h3 -> same_lists h1 h3.
Proof.
  unfold same_lists. intros (A1 & A2 & A3 & A4) (B1 & B2 & B3 & B4).
  repeat split; congruence.
Qed.

Lemma split_block_same_lists (h : heap) (block size : Z) :
  same_lists h (fst (split_block h block size)).
Proof.
  unfold split_block.
  repeat match goal with
         | |- context [if ?c then _ else _] => destruct c
         end; cbn [fst]; first [apply same_lists_refl | apply with_mem_same_lists].
Qed.

Lemma malloc_impl_same_lists (mm : option Z) (scribble : bool)
    (h : heap) (size : Z) (name : list Z) :
  same_lists h (fst (malloc_impl mm scribble h size name)).
Proof.
  unfold malloc_impl, reuse.
  rewrite Z.eqb_refl. cbn [negb].
  destruct mm as [block|]; [|apply same_lists_refl].
  cbn [fst].
  eapply same_lists_trans; [|apply with_mem_same_lists].
  eapply same_lists_trans; [apply with_mem_same_lists|].
  apply split_block_same_lists.
Qed.

Lemma malloc_impl_mapped_ptr (a : Z) (scribble : bool)
    (h : heap) (size : Z) (name : list Z) :
  snd (malloc_impl (Some a) scribble h size name) = wrap (a + sizeof_mem_block).
Proof. reflexivity. Qed.

Lemma malloc_impl_stored_size (a : Z) (h : heap) (size : Z) (name : list Z) :
  get_size (mem (fst (malloc_impl (Some a) false h size name))) a
  = wrap (size + sizeof_mem_block).
Proof.
  unfold malloc_impl, reuse.
  rewrite Z.eqb_refl. cbn [negb fst mem with_mem].
  unfold get_size, set_size.
  rewrite load64_store64_same.
  unfold wrap. apply Z.mod_mod. discriminate.
Qed.

(** C4: the size field that [malloc_impl] stores is the requested size
    plus the header size, not its rounding up to [ALIGNMENT].  For a
    request of 2 bytes the block gets the size 66, whose decoded real
    size 66 leaves the remainder 2 modulo 16, while the aligned size
    the function computed is 80. *)
Theorem malloc_impl_size_not_aligned :
  snd (malloc_impl (Some 4096) false initial_heap 2 []) = 4160 /\
  get_size (mem (fst (malloc_impl (Some 4096) false initial_heap 2 []))) 4096 = 66 /\
  real_size (get_size (mem (fst (malloc_impl (Some 4096) false initial_heap 2 []))) 4096)
    mod ALIGNMENT = 2 /\
  align (wrap (2 + sizeof_mem_block)) ALIGNMENT = 80.
Proof.
  split; [reflexivity|].
  rewrite malloc_impl_stored_size.
  repeat split.
Qed.

(** ** Zero allocation *)



(** When the request plus the header size wraps, the mapping is shorter
    than the range to clear and [memset] leaves it: the call does not
    return a block. *)
Lemma calloc_impl_past_mapping (a : Z) (scribble : bool)
    (h : heap) (nmemb size : Z) (name : list Z) :
  0 < a -> a + sizeof_mem_block < SIZE_MAX1 ->
  SIZE_MAX1 <= wrap (nmemb * size) + sizeof_mem_block ->
  calloc_impl (Some a) scribble h nmemb size name = None.
Proof.
  unfold sizeof_mem_block. intros Ha Hb Hn. unfold calloc_impl.
  pose proof (malloc_impl_mapped_ptr a scribble h (wrap (nmemb * size)) name) as Hp.
  destruct (malloc_impl (Some a) scribble h (wrap (nmemb * size)) name) as [h1 ptr].
  cbn [snd] in Hp. subst ptr.
  unfold sizeof_mem_block in *.
  rewrite (wrap_small (a + 64)) by lia.
  destruct (Z.eqb_spec (a + 64) NULL) as [E|_]; [unfold NULL in E; lia|].
  cbn [andb negb].
  unfold in_mapping.
  destruct (Z.leb_spec (a + 64 + wrap (nmemb * size)) SIZE_MAX1) as [E|_]; [lia|].
  rewrite andb_false_r. reflexivity.
Qed.



(** ** Resizing *)







(** For a non-null [ptr] and [size = 0], when the C library returned a
    buffer: that buffer is freed, the heap stays as it is and the result
    is [NULL]. *)
Lemma realloc_impl_zero (answer : Z) (owned : Z -> bool)
    (mm : option Z) (scribble : bool) (h : heap) (ptr : Z) (name : list Z) :
  answer <> NULL -> ptr <> NULL ->
  realloc_impl (CLibrary answer owned) mm scribble h ptr 0 name = Some (h, NULL).
Proof.
  intros Hl Hp. unfold realloc_impl, bound_malloc, bound_free.
  destruct (Z.eqb_spec answer NULL) as [E|_]; [contradiction|].
  destruct (Z.eqb_spec ptr NULL) as [E|_]; [contradiction|].
  cbn [Z.eqb]. rewrite Z.eqb_refl, orb_true_r. reflexivity.
Qed.

(** C8: [realloc_impl] with [size = 0] on the pointer of a live
    allocation returns [NULL] and leaves the heap as it was: the block
    behind the pointer is still used and the free list still empty,
    whereas [free_impl] flags the block free and makes it the head of the
    free list.  With the allocator's own entry points bound the call
    returns [NULL] as well and the block behind the pointer is still
    used. *)
Theorem realloc_impl_zero_keeps_block :
  snd one_alloc = 4160 /\
  realloc_impl (CLibrary 1000000 (fun _ => false)) None false
    (fst one_alloc) 4160 0 [] = Some (fst one_alloc, NULL) /\
  is_free (mem (fst one_alloc)) 4096 = false /\
  free_head (fst one_alloc) = NULL /\
  is_free (mem (free_impl (fst one_alloc) 4160)) 4096 = true /\
  free_head (free_impl (fst one_alloc) 4160) = 4096 /\
  option_map (fun r => (snd r, is_free (mem (fst r)) 4096))
    (realloc_impl (Interposed (Some 8192) false) None false
       (fst one_alloc) 4160 0 []) = Some (NULL, false).
Proof.
  split; [reflexivity|].
  split; [apply realloc_impl_zero; discriminate|].
  repeat split; vm_compute; reflexivity.
Qed.

(** ** Leak check and merging *)

Lemma leak_check_always (h : heap) : leak_check h = true.
Proof. reflexivity. Qed.

(** C9: after one allocation and the release of its pointer the block
    is flagged free and the block chain is empty, so no block of the
    chain is used; [leak_check] returns [true] all the same. *)
Theorem leak_check_after_release :
  released_once = free_impl (fst one_alloc) (snd one_alloc) /\
  is_free (mem released_once) 4096 = true /\
  blist_head released_once = NULL /\
  (forall n, existsb (fun b => negb (is_free (mem released_once) b))
               (block_walk n (mem released_once) (blist_head released_once)) = false) /\
  leak_check released_once = true.
Proof.
  split; [reflexivity|].
  split; [vm_compute; reflexivity|].
  split; [reflexivity|].
  split; [|reflexivity].
  intros n. destruct n; reflexivity.
Qed.

(** C2: in the heap of the figure in the comment of [merge_block], [b1]
    is free and its right chain neighbour [b2] exists, is free and is of
    the same region (and likewise [b1] for [b2]); [merge_block] returns
    [NULL] for both and changes nothing. *)
Theorem merge_block_never_merges :
  is_free (mem merge_example) b1 = true /\
  get_next_block (mem merge_example) b1 = b2 /\
  mergeable (mem merge_example) b1 b2 = true /\
  get_prev_block (mem merge_example) b2 = b1 /\
  mergeable (mem merge_example) b2 b1 = true /\
  merge_block merge_example b1 = (merge_example, NULL) /\
  merge_block merge_example b2 = (merge_example, NULL).
Proof. repeat split; vm_compute; reflexivity. Qed.

(** * Further properties of the code *)

(** ** The size field and its flag *)

Lemma real_size_range (s : Z) :
  0 <= s < SIZE_MAX1 -> 0 <= real_size s <= s /\ real_size s mod 2 = 0.
Proof.
  intros Hs. rewrite real_size_spec by exact Hs.
  pose proof (Z.mod_pos_bound s 2 ltac:(lia)) as Hm.
  pose proof (Z.div_mod s 2 ltac:(lia)) as Hd.
  split; [lia|].
  replace (s - s mod 2) with ((s / 2) * 2) by lia.
  apply Z.mod_mul. lia.
Qed.

Lemma get_size_set_free (m : memory) (b : Z) :
  get_size (set_free m b) b = real_size (get_size m b) + 1.
Proof.
  pose proof (load64_range m (b + off_size)) as Hr.
  fold (get_size m b) in Hr.
  pose proof (Z.mod_pos_bound (get_size m b) 2 ltac:(lia)) as Hm.
  unfold set_free, set_size. unfold get_size at 1.
  rewrite load64_store64_same.
  rewrite lor_1_spec by lia.
  rewrite real_size_spec by exact Hr.
  apply wrap_small.
  assert (Hc : get_size m b mod 2 = 0 \/ get_size m b mod 2 = 1) by lia.
  destruct Hc as [Hc|Hc]; rewrite Hc; [|lia].
  assert (get_size m b <> SIZE_MAX1 - 1).
  { intros E. rewrite E in Hc. vm_compute in Hc. discriminate. }
  lia.
Qed.

Lemma get_size_set_used (m : memory) (b : Z) :
  get_size (set_used m b) b = real_size (get_size m b).
Proof.
  pose proof (load64_range m (b + off_size)) as Hr.
  fold (get_size m b) in Hr.
  pose proof (real_size_range _ Hr) as [Hq _].
  unfold set_used, set_size. unfold get_size at 1.
  rewrite load64_store64_same.
  fold (real_size (get_size m b)).
  apply wrap_small. lia.
Qed.

Lemma is_free_of_size (m : memory) (b : Z) :
  is_free m b = (get_size m b mod 2 =? 1).
Proof. unfold is_free. rewrite land_1_mod. reflexivity. Qed.

Lemma real_size_idem (s : Z) :
  0 <= s < SIZE_MAX1 -> real_size (real_size s) = real_size s.
Proof.
  intros Hs. pose proof (real_size_range s Hs) as [Hr He].
  apply real_size_even; [lia | exact He].
Qed.

Lemma real_size_succ (s : Z) :
  0 <= s < SIZE_MAX1 -> real_size (real_size s + 1) = real_size s.
Proof.
  intros Hs. pose proof (real_size_range s Hs) as [Hr He].
  pose proof (Z.mod_pos_bound s 2 ltac:(lia)) as Hm.
  rewrite (real_size_odd (real_size s + 1)).
  - lia.
  - rewrite real_size_spec in * by exact Hs.
    assert (Hc : s mod 2 = 0 \/ s mod 2 = 1) by lia.
    destruct Hc as [Hc|Hc]; rewrite Hc in *; [|lia].
    assert (s <> SIZE_MAX1 - 1).
    { intros E. rewrite E in Hc. vm_compute in Hc. discriminate. }
    lia.
  - rewrite Zplus_mod, He. reflexivity.
Qed.

(** X1: marking a block free sets the flag, keeps the real size, and
    writes nothing but the eight bytes of the size field; marking it free
    twice is the same as once. *)
Theorem set_free_marks (m : memory) (b : Z) :
  is_free (set_free m b) b = true /\
  real_size (get_size (set_free m b) b) = real_size (get_size m b) /\
  get_size (set_free (set_free m b) b) b = get_size (set_free m b) b /\
  (forall x, x < b + off_size \/ b + off_size + 8 <= x -> set_free m b x = m x).
Proof.
  pose proof (load64_range m (b + off_size)) as Hr.
  fold (get_size m b) in Hr.
  split; [apply set_free_is_free|].
  split; [|split].
  - rewrite get_size_set_free. apply real_size_succ. exact Hr.
  - rewrite !get_size_set_free. rewrite real_size_succ by exact Hr. reflexivity.
  - intros x Hx. unfold set_free, set_size. apply store64_outside. exact Hx.
Qed.

(** X2: marking a block used clears the flag, keeps the real size (the
    size field becomes the real size), and writes nothing but the eight
    bytes of the size field; it undoes a marking as free. *)
Theorem set_used_marks (m : memory) (b : Z) :
  is_free (set_used m b) b = false /\
  get_size (set_used m b) b = real_size (get_size m b) /\
  get_size (set_used (set_free m b) b) b = real_size (get_size m b) /\
  (forall x, x < b + off_size \/ b + off_size + 8 <= x -> set_used m b x = m x).
Proof.
  pose proof (load64_range m (b + off_size)) as Hr.
  fold (get_size m b) in Hr.
  pose proof (real_size_range _ Hr) as [Hq He].
  split; [|split; [|split]].
  - rewrite is_free_of_size, get_size_set_used, He. reflexivity.
  - apply get_size_set_used.
  - rewrite get_size_set_used, get_size_set_free.
    apply real_size_succ. exact Hr.
  - intros x Hx. unfold set_used, set_size. apply store64_outside. exact Hx.
Qed.

(** X3: the size field of a block is its real size plus its flag: the
    real size is even, and the field exceeds it by one exactly when the
    block is flagged free. *)
Theorem size_field_decodes (m : memory) (b : Z) :
  real_size (get_size m b) mod 2 = 0 /\
  get_size m b = real_size (get_size m b) + (if is_free m b then 1 else 0) /\
  real_size (real_size (get_size m b)) = real_size (get_size m b).
Proof.
  pose proof (load64_range m (b + off_size)) as Hr.
  fold (get_size m b) in Hr.
  pose proof (real_size_range _ Hr) as [Hq He].
  pose proof (Z.mod_pos_bound (get_size m b) 2 ltac:(lia)) as Hm.
  split; [exact He|]. split; [|apply real_size_idem; exact Hr].
  rewrite is_free_of_size, real_size_spec by exact Hr.
  destruct (Z.eqb_spec (get_size m b mod 2) 1) as [E|E]; lia.
Qed.

(** ** Alignment, continued *)

(** X4: rounding up adds less than the alignment and is idempotent:
    whenever some multiple of [a] that is [>= n] is representable,
    [align n a < n + a] and aligning the result again returns it. *)
Theorem align_idempotent (n a M : Z) :
  0 <= n < SIZE_MAX1 -> 0 < a ->
  (a | M) -> n <= M < SIZE_MAX1 ->
  align n a < n + a /\ align (align n a) a = align n a.
Proof.
  intros Hn Ha HM Hb.
  destruct (align_bounds n a M Hn Ha HM Hb) as [Hdiv Hle].
  split.
  - rewrite align_cases in * by assumption.
    pose proof (Z.mod_pos_bound n a Ha) as Hr.
    destruct (Z.eqb_spec (n mod a) 0) as [H0|H0]; [lia|].
    destruct HM as [c Hc].
    pose proof (Z.div_mod n a ltac:(lia)) as Hdm.
    assert (Hq : n / a < c) by nia.
    assert (Hup : n - n mod a + a <= M) by nia.
    rewrite wrap_small by lia. lia.
  - apply align_exact; [lia | exact Ha | exact Hdiv].
Qed.

Lemma align_idempotent_witness :
  align 100 16 < 100 + 16 /\ align (align 100 16) 16 = align 100 16.
Proof.
  apply (align_idempotent 100 16 112).
  - rewrite SIZE_MAX1_eq. lia.
  - lia.
  - exists 7. reflexivity.
  - rewrite SIZE_MAX1_eq. lia.
Defined.

(** ** Splitting, continued *)

Lemma split_block_guards (h : heap) (block size : Z) :
  block = NULL \/ size < min_size \/
  real_size (get_size (mem h) block) < min_size \/
  is_free (mem h) block = false \/
  get_next_block (mem h) block = NULL ->
  split_block h block size = (h, NULL).
Proof.
  intros H. unfold split_block.
  destruct (Z.eqb_spec block NULL) as [E0|E0]; [reflexivity|].
  destruct (Z.ltb_spec size min_size) as [E1|E1]; [reflexivity|].
  cbn [orb].
  destruct (Z.ltb_spec (real_size (get_size (mem h) block)) min_size) as [E2|E2];
    [reflexivity|].
  destruct (is_free (mem h) block) eqn:E3; cbn [negb]; [|reflexivity].
  destruct (Z.eqb_spec (get_next_block (mem h) block) NULL) as [E4|E4];
    [reflexivity|].
  destruct H as [H|[H|[H|[H|H]]]]; try contradiction; try lia; discriminate.
Qed.

(** X5: [split_block] refuses a null block, a tail size below
    [min_size], a block whose real size is below [min_size], a used block
    and a block without chain successor; each time it returns [NULL] and
    the heap is unchanged. *)
Theorem split_block_refuses (h : heap) (block size : Z) :
  block = NULL \/ size < min_size \/
  real_size (get_size (mem h) block) < min_size \/
  is_free (mem h) block = false \/
  get_next_block (mem h) block = NULL ->
  split_block h block size = (h, NULL).
Proof. exact (split_block_guards h block size). Qed.

Lemma split_block_refuses_witness :
  split_block (fst one_alloc) 4096 80 = (fst one_alloc, NULL).
Proof.
  apply split_block_refuses.
  right. right. right. left. vm_compute. reflexivity.
Defined.

(** X6: under the conditions of a successful split (a free block inside
    the address space, a chain successor outside of it, an even tail size
    of at least [min_size], a real size of at least the tail size plus
    [min_size]) the chain is linked in both directions: the tail's
    predecessor is the block and the old successor's predecessor is the
    tail; the block stays flagged free and the tail is flagged free;
    the region field of the tail is left as it was found; and the four
    list pointers are unchanged, so the tail is not put on the free
    list. *)
Theorem split_block_links (h : heap) (block size : Z) :
  0 < block ->
  block + real_size (get_size (mem h) block) < SIZE_MAX1 ->
  is_free (mem h) block = true ->
  get_next_block (mem h) block <> NULL ->
  get_next_block (mem h) block + sizeof_mem_block <= block \/
    block + real_size (get_size (mem h) block) <= get_next_block (mem h) block ->
  min_size <= size ->
  size mod 2 = 0 ->
  size + min_size <= real_size (get_size (mem h) block) ->
  get_prev_block (mem (fst (split_block h block size))) (snd (split_block h block size))
    = block /\
  get_prev_block (mem (fst (split_block h block size))) (get_next_block (mem h) block)
    = snd (split_block h block size) /\
  is_free (mem (fst (split_block h block size))) block = true /\
  is_free (mem (fst (split_block h block size))) (snd (split_block h block size)) = true /\
  get_region (mem (fst (split_block h block size))) (snd (split_block h block size))
    = get_region (mem h) (snd (split_block h block size)) /\
  same_lists h (fst (split_block h block size)).
Proof.
  intros Hpos Hsp Hfree Hnn Hout Hmin Heven Hlarge.
  pose proof (is_free_odd _ _ Hfree) as Hodd.
  split; [|split; [|split; [|split; [|split]]]].
  6: apply split_block_same_lists.
  all: rewrite (split_block_runs h block size Hpos Hsp Hfree Hnn Hout Hmin Hlarge);
    cbn [fst snd mem with_mem].
  - apply (split_m7_tail_prev h block size Hpos Hsp Hfree Hout Hmin Hlarge).
  - apply (split_m7_next_prev h block size Hpos Hsp Hfree Hout Hmin Hlarge).
  - rewrite is_free_of_size.
    rewrite (split_m7_block_size h block size Hpos Hsp Hfree Hout Hmin Hlarge).
    rewrite Zminus_mod, Hodd, Heven. reflexivity.
  - rewrite is_free_of_size.
    rewrite (split_m7_tail_size h block size Hpos Hsp Hfree Hout Hmin Hlarge).
    rewrite Zplus_mod, Heven. reflexivity.
  - apply (split_m7_tail_region h block size Hpos Hsp Hfree Hout Hmin Hlarge).
Qed.

Lemma split_block_links_witness :
  get_prev_block (mem (fst (split_block split_example 4096 736)))
    (snd (split_block split_example 4096 736)) = 4096 /\
  is_free (mem (fst (split_block split_example 4096 736)))
    (snd (split_block split_example 4096 736)) = true.
Proof.
  assert (H8000 : real_size (get_size (mem split_example) 4096) = 8000)
    by (vm_compute; reflexivity).
  assert (H20000 : get_next_block (mem split_example) 4096 = 20000)
    by (vm_compute; reflexivity).
  destruct (split_block_links split_example 4096 736) as (H1 & _ & _ & H2 & _).
  - lia.
  - rewrite H8000. vm_compute. reflexivity.
  - vm_compute. reflexivity.
  - rewrite H20000. discriminate.
  - rewrite H20000, H8000. right. vm_compute. discriminate.
  - vm_compute. discriminate.
  - reflexivity.
  - rewrite H8000. vm_compute. discriminate.
  - split; [exact H1 | exact H2].
Defined.

(** ** The free list *)

Lemma free_chain_frame (m m' : memory) :
  forall (l : list Z) (f : Z),
    Forall (fun x => get_next_free m' x = get_next_free m x) l ->
    free_chain m f l -> free_chain m' f l.
Proof.
  induction l as [|x l IH]; intros f HF Hc.
  - exact Hc.
  - destruct Hc as (Hf & Hx & Hc).
    inversion HF as [|? ? Hx' HF']; subst.
    cbn [free_chain]. repeat split; try assumption; try reflexivity.
    rewrite Hx'. apply IH; assumption.
Qed.

Lemma free_chain_cons (m : memory) (f x : Z) (l : list Z) :
  f = x -> x <> NULL -> free_chain m (get_next_free m x) l ->
  free_chain m f (x :: l).
Proof. intros H1 H2 H3. cbn [free_chain]. repeat split; assumption. Qed.

Lemma add_free_block_size (h : heap) (b : Z) :
  free_head h = b \/ apart (free_head h) b ->
  get_size (mem (add_free h b)) b = real_size (get_size (mem h) b) + 1.
Proof.
  intros Hsep. rewrite <- get_size_set_free.
  unfold add_free.
  destruct ((free_head h =? NULL) && (free_tail h =? NULL)); cbn [mem];
    [reflexivity|].
  unfold apart, min_size in Hsep.
  unfold get_size at 1. unfold set_prev_free, set_next_free.
  field_offsets.
  rewrite !load64_store64_other by lia.
  reflexivity.
Qed.

(** X7: releasing into an empty free list makes the block both head and
    tail of the list and flags it free with its real size kept; the
    [next_free] and [prev_free] links of the block are not written: they
    keep whatever the payload held. *)
Theorem add_free_first (h : heap) (b : Z) :
  free_head h = NULL -> free_tail h = NULL ->
  free_head (add_free h b) = b /\
  free_tail (add_free h b) = b /\
  is_free (mem (add_free h b)) b = true /\
  real_size (get_size (mem (add_free h b)) b) = real_size (get_size (mem h) b) /\
  get_next_free (mem (add_free h b)) b = get_next_free (mem h) b /\
  get_prev_free (mem (add_free h b)) b = get_prev_free (mem h) b.
Proof.
  intros Hh Ht. unfold add_free. rewrite Hh, Ht. cbn [Z.eqb NULL andb].
  cbn [free_head free_tail mem].
  assert (H4 : forall x, x < b + off_size \/ b + off_size + 8 <= x ->
                         set_free (mem h) b x = mem h x).
  { intros x Hx. unfold set_free, set_size. apply store64_outside. exact Hx. }
  pose proof (load64_range (mem h) (b + off_size)) as Hr.
  fold (get_size (mem h) b) in Hr.
  split; [reflexivity|]. split; [reflexivity|].
  split; [apply set_free_is_free|].
  split; [rewrite get_size_set_free; apply real_size_succ; exact Hr|].
  split.
  - unfold get_next_free. apply load64_ext. intros x Hx. apply H4.
    unfold off_size, off_next_free in *. lia.
  - unfold get_prev_free. apply load64_ext. intros x Hx. apply H4.
    unfold off_size, off_prev_free in *. lia.
Qed.

Lemma add_free_first_witness :
  free_head (add_free (fst one_alloc) 4096) = 4096 /\
  free_tail (add_free (fst one_alloc) 4096) = 4096.
Proof.
  destruct (add_free_first (fst one_alloc) 4096) as (H1 & H2 & _).
  - reflexivity.
  - reflexivity.
  - split; [exact H1 | exact H2].
Defined.

(** X8: releasing into a non-empty free list pushes the block at the
    head.  When the free list is the null-terminated chain [l] and the
    block and the blocks of [l] are pairwise apart, the free list
    afterwards is the chain [b :: l]; the old head's [prev_free] is the
    block, the block is flagged free and the tail pointer does not
    move. *)
Theorem add_free_push (h : heap) (b : Z) (l : list Z) :
  0 < b < SIZE_MAX1 ->
  0 < free_head h < SIZE_MAX1 ->
  free_chain (mem h) (free_head h) l ->
  separated (b :: l) ->
  free_chain (mem (add_free h b)) (free_head (add_free h b)) (b :: l) /\
  free_tail (add_free h b) = free_tail h /\
  get_prev_free (mem (add_free h b)) (free_head h) = b /\
  is_free (mem (add_free h b)) b = true.
Proof.
  intros Hb Hh Hc Hsep.
  destruct l as [|x l].
  { cbn in Hc. unfold NULL in Hc. lia. }
  pose proof Hc as Hc0.
  destruct Hc as (Hx & Hxn & Hc).
  destruct Hsep as (Hbl & Hxl & _).
  inversion Hbl as [|? ? Hbx Hbl']; subst.
  assert (Hsize : get_size (mem (add_free h b)) b
                  = real_size (get_size (mem h) b) + 1).
  { apply add_free_block_size. right.
    unfold apart in *. lia. }
  assert (Hfree : is_free (mem (add_free h b)) b = true).
  { rewrite is_free_of_size, Hsize.
    pose proof (load64_range (mem h) (b + off_size)) as Hr.
    fold (get_size (mem h) b) in Hr.
    pose proof (real_size_range _ Hr) as [_ He].
    rewrite Zplus_mod, He. reflexivity. }
  rewrite add_free_head.
  split; [|split; [|split; [|exact Hfree]]].
  - unfold add_free in *.
    destruct (Z.eqb_spec (free_head h) NULL) as [E|_]; [unfold NULL in E; lia|].
    cbn [andb mem] in *.
    unfold apart, min_size in *.
    apply free_chain_cons; [reflexivity | unfold NULL; lia |].
    assert (Hnb : get_next_free
                    (set_prev_free
                       (set_next_free (set_free (mem h) b) b (free_head h))
                       (free_head h) b) b = free_head h).
    { unfold set_free. field_offsets. load_store. apply wrap_small. lia. }
    rewrite Hnb.
    apply (free_chain_frame (mem h)); [|exact Hc0].
    constructor.
    + unfold set_free. field_offsets. load_store. reflexivity.
    + rewrite Forall_forall in *. intros y Hy.
      specialize (Hbl' y Hy). specialize (Hxl y Hy).
      unfold set_free. field_offsets. load_store. reflexivity.
  - unfold add_free.
    destruct (Z.eqb_spec (free_head h) NULL) as [E|_]; [unfold NULL in E; lia|].
    reflexivity.
  - unfold add_free.
    destruct (Z.eqb_spec (free_head h) NULL) as [E|_]; [unfold NULL in E; lia|].
    cbn [andb mem]. field_offsets. load_store. apply wrap_small. lia.
Qed.

Lemma add_free_push_witness :
  free_chain (mem (add_free released_once 8192))
    (free_head (add_free released_once 8192)) [8192; 4096].
Proof.
  destruct (add_free_push released_once 8192 [4096]) as (H & _).
  - rewrite SIZE_MAX1_eq. lia.
  - rewrite SIZE_MAX1_eq. vm_compute. split; reflexivity.
  - cbn [free_chain]. repeat split; try discriminate; vm_compute; reflexivity.
  - cbn [separated]. split; [|split; [constructor | exact I]].
    constructor; [|constructor].
    right. vm_compute. discriminate.
  - exact H.
Defined.

(** X9: release composed with first fit.  After [free_impl] of a
    payload pointer whose block does not overlap the current head of the
    free list, [first_fit] for any size up to the real size of that block
    returns that block: the most recently released block is tried
    first. *)
Theorem free_impl_then_first_fit (h : heap) (ptr size : Z) (fuel : nat) :
  sizeof_mem_block < ptr < SIZE_MAX1 ->
  free_head h = ptr - sizeof_mem_block \/ apart (free_head h) (ptr - sizeof_mem_block) ->
  size <= real_size (get_size (mem h) (ptr - sizeof_mem_block)) ->
  first_fit (S fuel) (free_impl h ptr) size = Some (ptr - sizeof_mem_block).
Proof.
  unfold sizeof_mem_block. intros Hp Hsep Hsz.
  unfold free_impl.
  destruct (Z.eqb_spec ptr NULL) as [E|_]; [unfold NULL in E; lia|].
  unfold sizeof_mem_block. rewrite wrap_small by lia.
  unfold first_fit. rewrite add_free_head.
  cbn [first_fit_loop].
  destruct (Z.eqb_spec (ptr - 64) NULL) as [E|_]; [unfold NULL in E; lia|].
  rewrite (add_free_block_size h (ptr - 64) Hsep).
  pose proof (load64_range (mem h) (ptr - 64 + off_size)) as Hr.
  fold (get_size (mem h) (ptr - 64)) in Hr.
  rewrite real_size_succ by exact Hr.
  destruct (Z.leb_spec size (real_size (get_size (mem h) (ptr - 64)))) as [_|E];
    [reflexivity | lia].
Qed.

Lemma free_impl_then_first_fit_witness :
  first_fit 1 (free_impl (fst one_alloc) 4160) 72 = Some 4096.
Proof.
  apply (free_impl_then_first_fit (fst one_alloc) 4160 72 0).
  - rewrite SIZE_MAX1_eq. unfold sizeof_mem_block. lia.
  - right. left. vm_compute. discriminate.
  - vm_compute. discriminate.
Defined.

(** X10: a release writes at most three fields (the size field and the
    [next_free] link of the block, the [prev_free] link of the old head)
    and leaves every other byte of memory, the rest of the payload
    included, and the two block-chain pointers as they were; the release
    of [NULL] writes nothing. *)
Theorem free_impl_frame (h : heap) (ptr x : Z) :
  ~ (wrap (ptr - sizeof_mem_block) + off_size <= x
     < wrap (ptr - sizeof_mem_block) + off_size + 8) ->
  ~ (wrap (ptr - sizeof_mem_block) + off_next_free <= x
     < wrap (ptr - sizeof_mem_block) + off_next_free + 8) ->
  ~ (free_head h + off_prev_free <= x < free_head h + off_prev_free + 8) ->
  mem (free_impl h ptr) x = mem h x /\
  blist_head (free_impl h ptr) = blist_head h /\
  blist_tail (free_impl h ptr) = blist_tail h /\
  free_impl h NULL = h.
Proof.
  intros H1 H2 H3. unfold free_impl.
  destruct (ptr =? NULL); [repeat split|].
  unfold add_free.
  destruct ((free_head h =? NULL) && (free_tail h =? NULL)); cbn [mem blist_head blist_tail].
  - split; [|repeat split].
    unfold set_free, set_size. apply store64_outside. lia.
  - split; [|repeat split].
    unfold set_prev_free, set_next_free, set_free, set_size.
    rewrite !store64_outside by lia. reflexivity.
Qed.

Lemma free_impl_frame_witness :
  mem (free_impl (fst one_alloc) 4160) 4176 = mem (fst one_alloc) 4176.
Proof.
  destruct (free_impl_frame (fst one_alloc) 4160 4176) as (H & _).
  - vm_compute. intros [_ H]. discriminate.
  - vm_compute. intros [_ H]. discriminate.
  - vm_compute. intros [_ H]. discriminate.
  - exact H.
Defined.

(** ** Allocation, continued *)

Lemma store_bytes_outside :
  forall (bs : list Z) (m : memory) (a x : Z),
    x < a \/ a + Z.of_nat (length bs) <= x -> store_bytes m a bs x = m x.
Proof.
  induction bs as [|b bs IH]; intros m a x H.
  - reflexivity.
  - cbn [store_bytes]. cbn [length] in H. rewrite Nat2Z.inj_succ in H.
    rewrite IH by lia.
    unfold store8. destruct (Z.eqb_spec x a); [lia | reflexivity].
Qed.

Lemma strcpy_outside (m : memory) (dst : Z) (s : list Z) (x : Z) :
  x < dst \/ dst + Z.of_nat (length (c_string s)) + 1 <= x ->
  strcpy m dst s x = m x.
Proof.
  intros H. unfold strcpy. apply store_bytes_outside.
  rewrite length_app. cbn [length]. lia.
Qed.

Lemma load64_zero (m : memory) (a : Z) :
  (forall x, a <= x < a + 8 -> m x = 0) -> load64 m a = 0.
Proof.
  intros H. rewrite (load64_ext m (fun _ => 0)) by exact H. reflexivity.
Qed.

Lemma mmap_anon_zero (m : memory) (a len x : Z) :
  0 <= len -> a <= x < a + len -> mmap_anon m a len x = 0.
Proof.
  intros Hl Hx. unfold mmap_anon, memset, PAGE_SIZE.
  assert (Hspan : len <= (len + 4096 - 1) / 4096 * 4096).
  { pose proof (Z.div_mod (len + 4096 - 1) 4096 ltac:(lia)).
    pose proof (Z.mod_pos_bound (len + 4096 - 1) 4096 ltac:(lia)). lia. }
  destruct (Z.leb_spec a x); [|lia].
  destruct (Z.ltb_spec x (a + (len + 4096 - 1) / 4096 * 4096)); [|lia].
  reflexivity.
Qed.

Lemma memset_outside (m : memory) (p c n x : Z) :
  x < p \/ p + n <= x -> memset m p c n x = m x.
Proof.
  intros H. unfold memset.
  destruct (Z.leb_spec p x); destruct (Z.ltb_spec x (p + n)); cbn [andb];
    try reflexivity; lia.
Qed.

Lemma malloc_impl_size_field (a : Z) (scribble : bool)
    (h : heap) (size : Z) (name : list Z) :
  0 <= a -> a + sizeof_mem_block < SIZE_MAX1 ->
  get_size (mem (fst (malloc_impl (Some a) scribble h size name))) a
  = wrap (size + sizeof_mem_block).
Proof.
  unfold sizeof_mem_block. intros Ha Hb.
  unfold malloc_impl, reuse.
  rewrite Z.eqb_refl. cbn [negb fst mem with_mem].
  unfold sizeof_mem_block. rewrite (wrap_small (a + 64)) by lia.
  assert (Hw : wrap (wrap (size + 64)) = wrap (size + 64)).
  { unfold wrap. apply Z.mod_mod. discriminate. }
  destruct scribble.
  - unfold get_size, off_size.
    rewrite (load64_ext _ (set_size
       (set_used (mem (fst (split_block
          (with_mem h (set_free (set_region (strcpy (mmap_anon (mem h) a
              (wrap (size + 64))) (a + off_name) name) a a) a)) a
          (wrap (real_size (get_size (set_free (set_region (strcpy
              (mmap_anon (mem h) a (wrap (size + 64))) (a + off_name) name)
              a a) a) a) - align (wrap (size + 64)) ALIGNMENT))))) a)
       a (wrap (size + 64)))).
    + unfold set_size, off_size. rewrite load64_store64_same. exact Hw.
    + intros x Hx. apply memset_outside. lia.
  - unfold get_size, set_size. rewrite load64_store64_same. exact Hw.
Qed.

(** X11: [malloc_impl] never reuses memory.  Its result is decided by
    the answer of [mmap] alone, whatever the heap holds: [NULL] when the
    mapping fails, the address just past the header of the new mapping
    otherwise; and it never changes the four list pointers, so it takes
    nothing off the free list and puts nothing on the block chain. *)
Theorem malloc_impl_always_maps (mm : option Z) (scribble : bool)
    (h : heap) (size : Z) (name : list Z) :
  snd (malloc_impl mm scribble h size name)
    = match mm with
      | None => NULL
      | Some a => wrap (a + sizeof_mem_block)
      end /\
  snd (malloc_impl mm scribble h size name)
    = snd (malloc_impl mm scribble initial_heap size name) /\
  same_lists h (fst (malloc_impl mm scribble h size name)) /\
  fst (malloc_impl None scribble h size name) = h.
Proof.
  split; [|split; [|split]].
  - destruct mm as [a|]; [apply malloc_impl_mapped_ptr | reflexivity].
  - destruct mm as [a|]; [|reflexivity].
    rewrite !malloc_impl_mapped_ptr. reflexivity.
  - apply malloc_impl_same_lists.
  - reflexivity.
Qed.

(** X12: the flag of a new block is the parity of the request.  For a
    request that does not overflow, the size field of the block that
    [malloc_impl] returns is the request plus the header size, so a block
    allocated for an odd size is flagged free although it is in use, and
    its decoded real size is one less than the stored size. *)
Theorem malloc_impl_flag_is_parity (a : Z) (scribble : bool)
    (h : heap) (size : Z) (name : list Z) :
  0 <= a -> a + sizeof_mem_block < SIZE_MAX1 ->
  0 <= size -> size + sizeof_mem_block < SIZE_MAX1 ->
  get_size (mem (fst (malloc_impl (Some a) scribble h size name))) a
    = size + sizeof_mem_block /\
  is_free (mem (fst (malloc_impl (Some a) scribble h size name))) a = Z.odd size /\
  real_size (get_size (mem (fst (malloc_impl (Some a) scribble h size name))) a)
    = size + sizeof_mem_block - size mod 2.
Proof.
  intros Ha Hb Hs Ht.
  pose proof (malloc_impl_size_field a scribble h size name Ha Hb) as E.
  rewrite wrap_small in E by (unfold sizeof_mem_block in *; lia).
  split; [exact E|].
  assert (Hm : (size + sizeof_mem_block) mod 2 = size mod 2).
  { unfold sizeof_mem_block. replace 64 with (32 * 2) by reflexivity.
    apply Z.mod_add. lia. }
  split.
  - rewrite is_free_of_size, E, Hm.
    rewrite Zmod_odd. destruct (Z.odd size); reflexivity.
  - rewrite E. rewrite real_size_spec by (unfold sizeof_mem_block in *; lia).
    rewrite Hm. reflexivity.
Qed.

Lemma malloc_impl_flag_is_parity_witness :
  is_free (mem (fst (malloc_impl (Some 4096) false initial_heap 1 []))) 4096
    = Z.odd 1.
Proof.
  destruct (malloc_impl_flag_is_parity 4096 false initial_heap 1 []) as (_ & H & _).
  - lia.
  - rewrite SIZE_MAX1_eq. unfold sizeof_mem_block. lia.
  - lia.
  - rewrite SIZE_MAX1_eq. unfold sizeof_mem_block. lia.
  - exact H.
Defined.

(** X13: the size computation of [malloc_impl] wraps.  For a request
    within 64 of the top of [size_t] a successful mapping makes the call
    return a payload pointer for a block whose stored size is the request
    minus [2^64 - 64]: less than the size of its own header. *)
Theorem malloc_impl_size_wraps (a : Z) (scribble : bool)
    (h : heap) (size : Z) (name : list Z) :
  0 <= a -> a + sizeof_mem_block < SIZE_MAX1 ->
  SIZE_MAX1 - sizeof_mem_block <= size < SIZE_MAX1 ->
  snd (malloc_impl (Some a) scribble h size name) = a + sizeof_mem_block /\
  get_size (mem (fst (malloc_impl (Some a) scribble h size name))) a
    = size + sizeof_mem_block - SIZE_MAX1 /\
  get_size (mem (fst (malloc_impl (Some a) scribble h size name))) a
    < sizeof_mem_block.
Proof.
  intros Ha Hb Hs.
  pose proof (malloc_impl_size_field a scribble h size name Ha Hb) as E.
  assert (Hw : wrap (size + sizeof_mem_block) = size + sizeof_mem_block - SIZE_MAX1).
  { unfold wrap. symmetry.
    apply (Z.mod_unique _ _ 1); [left; unfold sizeof_mem_block in *; lia | ring]. }
  rewrite Hw in E.
  split; [|split].
  - rewrite malloc_impl_mapped_ptr. apply wrap_small.
    unfold sizeof_mem_block in *. lia.
  - exact E.
  - rewrite E. lia.
Qed.

Lemma malloc_impl_size_wraps_witness :
  get_size (mem (fst (malloc_impl (Some 4096) false initial_heap (SIZE_MAX1 - 1) []))) 4096
    = 63.
Proof.
  destruct (malloc_impl_size_wraps 4096 false initial_heap (SIZE_MAX1 - 1) [])
    as (_ & H & _).
  - lia.
  - rewrite SIZE_MAX1_eq. unfold sizeof_mem_block. lia.
  - rewrite SIZE_MAX1_eq. unfold sizeof_mem_block. lia.
  - exact H.
Defined.

(** X14: with [ALLOCATOR_SCRIBBLE] set, [malloc_impl] fills
    [size + 64] bytes from the payload start with [0xAA]: the payload
    and the 64 bytes that follow the block. *)
Theorem malloc_impl_scribbles (a : Z) (h : heap) (size : Z) (name : list Z) (i : Z) :
  0 <= a -> a + sizeof_mem_block < SIZE_MAX1 ->
  0 <= i < wrap (size + sizeof_mem_block) ->
  load8 (mem (fst (malloc_impl (Some a) true h size name)))
    (a + sizeof_mem_block + i) = 170.
Proof.
  unfold sizeof_mem_block. intros Ha Hb Hi.
  unfold malloc_impl, reuse.
  rewrite Z.eqb_refl. cbn [negb fst mem with_mem].
  unfold sizeof_mem_block. rewrite (wrap_small (a + 64)) by lia.
  unfold load8, memset.
  destruct (Z.leb_spec (a + 64) (a + 64 + i)); [|lia].
  destruct (Z.ltb_spec (a + 64 + i) (a + 64 + wrap (size + 64))); [|lia].
  reflexivity.
Qed.

Lemma malloc_impl_scribbles_witness :
  load8 (mem (fst (malloc_impl (Some 4096) true initial_heap 8 [])))
    (4096 + sizeof_mem_block + 71) = 170.
Proof.
  apply (malloc_impl_scribbles 4096 initial_heap 8 [] 71).
  - lia.
  - rewrite SIZE_MAX1_eq. unfold sizeof_mem_block. lia.
  - vm_compute. split; [discriminate | reflexivity].
Defined.

Lemma store_bytes_inside :
  forall (bs : list Z) (m : memory) (a : Z) (k : nat),
    (k < length bs)%nat ->
    store_bytes m a bs (a + Z.of_nat k) = nth k bs 0 mod 256.
Proof.
  induction bs as [|b bs IH]; intros m a k Hk.
  - inversion Hk.
  - cbn [store_bytes]. destruct k as [|k].
    + rewrite store_bytes_outside by lia.
      unfold store8. replace (a + Z.of_nat 0) with a by (cbn; lia).
      rewrite Z.eqb_refl. reflexivity.
    + replace (a + Z.of_nat (S k)) with (a + 1 + Z.of_nat k) by lia.
      cbn [length] in Hk. rewrite IH by lia. reflexivity.
Qed.

Section FreshBlock.

Variable h : heap.
Variables a size : Z.
Variable name : list Z.

Hypothesis a_range : 0 <= a /\ a + sizeof_mem_block < SIZE_MAX1.
Hypothesis size_range : 0 <= size /\ size + sizeof_mem_block < SIZE_MAX1.
Hypothesis name_fits : (length (c_string name) < 32)%nat.

(* The memories of [malloc_impl] up to the call of [split_block], and
   after it when the split is refused. *)
Let len := size + sizeof_mem_block.
Let m0 := mmap_anon (mem h) a len.
Let m1 := strcpy m0 (a + off_name) name.
Let m2 := set_region m1 a a.
Let m3 := set_free m2 a.
Let m6 := set_size (set_used m3 a) a len.

Lemma fresh_m1_zero (x : Z) : a + off_size <= x < a + len -> m1 x = 0.
Proof.
  intros Hx. unfold m1, m0, len, off_size, off_name, sizeof_mem_block in *.
  rewrite strcpy_outside by lia.
  apply mmap_anon_zero; lia.
Qed.

Lemma fresh_m2_size : get_size m2 a = 0.
Proof.
  unfold get_size. apply load64_zero. intros x Hx.
  unfold m2, set_region. unfold off_region, off_size in *.
  rewrite store64_outside by lia.
  apply fresh_m1_zero. unfold len, off_size, sizeof_mem_block.
  destruct size_range. lia.
Qed.

Lemma fresh_split_refused (s : Z) :
  split_block (with_mem h m3) a s = (with_mem h m3, NULL).
Proof.
  apply split_block_guards. right. right. left.
  cbn [mem with_mem]. unfold m3.
  rewrite get_size_set_free, fresh_m2_size.
  vm_compute. reflexivity.
Qed.

Lemma fresh_heap (scribble : bool) :
  fst (malloc_impl (Some a) scribble h size name)
  = with_mem h (if scribble then memset m6 (a + sizeof_mem_block) 170 len else m6).
Proof.
  destruct a_range as [Ha Hb]. destruct size_range as [Hs Ht].
  assert (H64 : sizeof_mem_block = 64) by reflexivity.
  unfold malloc_impl, reuse.
  rewrite Z.eqb_refl. cbn [negb fst].
  rewrite (wrap_small (size + sizeof_mem_block)) by lia.
  rewrite (wrap_small (a + sizeof_mem_block)) by lia.
  fold len. fold m0. fold m1. fold m2. fold m3.
  rewrite fresh_split_refused.
  cbn [fst mem with_mem]. fold m6.
  reflexivity.
Qed.

Lemma fresh_m6_outside (x : Z) :
  a + off_size + 8 <= x < a + len -> m6 x = 0.
Proof.
  intros Hx. unfold m6, m3, m2, set_size, set_used, set_free, set_size, set_region.
  unfold off_size, off_region in *.
  rewrite !store64_outside by lia.
  apply fresh_m1_zero. unfold off_size. lia.
Qed.

Lemma fresh_m6_region : get_region m6 a = a.
Proof.
  destruct a_range as [Ha Hb]. unfold sizeof_mem_block in *.
  unfold m6, m3, m2, set_used, set_free. field_offsets. load_store.
  apply wrap_small. lia.
Qed.

Lemma fresh_m6_name (k : nat) :
  (k <= length (c_string name))%nat ->
  load8 m6 (a + off_name + Z.of_nat k) = nth k (c_string name ++ [0]) 0 mod 256.
Proof.
  intros Hk. unfold load8.
  unfold m6, m3, m2, set_size, set_used, set_free, set_size, set_region.
  unfold off_size, off_region, off_name in *.
  rewrite !store64_outside by lia.
  unfold m1, strcpy, off_name.
  rewrite store_bytes_inside by (rewrite length_app; cbn [length]; lia).
  apply Z.mod_mod. discriminate.
Qed.

End FreshBlock.

Lemma load64_memset_before (m : memory) (p c n addr : Z) :
  addr + 8 <= p -> load64 (memset m p c n) addr = load64 m addr.
Proof.
  intros H. apply load64_ext. intros x Hx. apply memset_outside. lia.
Qed.

(** X15: the block that [malloc_impl] creates is a lone block.  For a
    request that does not overflow, a name shorter than the 32-byte name
    field and a successful mapping at [a], the split attempted inside
    [malloc_impl] is refused, and the header reads back as: region the
    block itself, both chain links [NULL] (the block is not linked to any
    other block), and the name field holding the name with its
    terminator. *)
Theorem malloc_impl_fresh_block (a : Z) (scribble : bool)
    (h : heap) (size : Z) (name : list Z) :
  0 <= a /\ a + sizeof_mem_block < SIZE_MAX1 ->
  0 <= size /\ size + sizeof_mem_block < SIZE_MAX1 ->
  (length (c_string name) < 32)%nat ->
  get_region (mem (fst (malloc_impl (Some a) scribble h size name))) a = a /\
  get_next_block (mem (fst (malloc_impl (Some a) scribble h size name))) a = NULL /\
  get_prev_block (mem (fst (malloc_impl (Some a) scribble h size name))) a = NULL /\
  forall k, (k <= length (c_string name))%nat ->
    load8 (mem (fst (malloc_impl (Some a) scribble h size name)))
      (a + off_name + Z.of_nat k)
    = nth k (c_string name ++ [0]) 0 mod 256.
Proof.
  intros Ha Hs Hn.
  rewrite (fresh_heap h a size name Ha Hs Hn scribble).
  cbn [mem with_mem].
  pose proof (fresh_m6_region h a size name Ha Hn) as Hreg.
  pose proof (fresh_m6_outside h a size name Hs Hn) as Hout.
  pose proof (fresh_m6_name h a size name Hn) as Hname.
  assert (H64 : sizeof_mem_block = 64) by reflexivity.
  assert (Hlinks : forall m', (forall x, a + 48 <= x < a + 64 -> m' x = 0) ->
            get_next_block m' a = NULL /\ get_prev_block m' a = NULL).
  { intros m' Hz. unfold get_next_block, get_prev_block, off_next_block, off_prev_block.
    split; apply load64_zero; intros x Hx; apply Hz; lia. }
  destruct scribble.
  - split; [|split].
    + unfold get_region, off_region. rewrite load64_memset_before by lia.
      exact Hreg.
    + apply Hlinks. intros x Hx. rewrite memset_outside by lia.
      apply Hout. unfold off_size. lia.
    + split.
      * apply Hlinks. intros x Hx. rewrite memset_outside by lia.
        apply Hout. unfold off_size. lia.
      * intros k Hk. unfold load8. rewrite memset_outside by (unfold off_name; lia).
        apply (Hname k Hk).
  - split; [exact Hreg|]. split; [|split].
    + apply Hlinks. intros x Hx. apply Hout. unfold off_size. lia.
    + apply Hlinks. intros x Hx. apply Hout. unfold off_size. lia.
    + exact Hname.
Qed.

Lemma malloc_impl_fresh_block_witness :
  get_region (mem (fst (malloc_impl (Some 4096) true initial_heap 300 [97; 98]))) 4096
    = 4096 /\
  get_next_block (mem (fst (malloc_impl (Some 4096) true initial_heap 300 [97; 98]))) 4096
    = NULL.
Proof.
  destruct (malloc_impl_fresh_block 4096 true initial_heap 300 [97; 98])
    as (H1 & H2 & _).
  - rewrite SIZE_MAX1_eq. unfold sizeof_mem_block. lia.
  - rewrite SIZE_MAX1_eq. unfold sizeof_mem_block. lia.
  - cbn. lia.
  - split; [exact H1 | exact H2].
Defined.

(** X16: without [ALLOCATOR_SCRIBBLE] the payload that [malloc_impl]
    returns is zero-filled: under the same conditions every one of the
    [size] bytes from the returned pointer on reads as 0. *)
Theorem malloc_impl_payload_zero (a : Z) (h : heap) (size : Z) (name : list Z) (i : Z) :
  0 <= a /\ a + sizeof_mem_block < SIZE_MAX1 ->
  0 <= size /\ size + sizeof_mem_block < SIZE_MAX1 ->
  (length (c_string name) < 32)%nat ->
  0 <= i < size ->
  load8 (mem (fst (malloc_impl (Some a) false h size name)))
    (snd (malloc_impl (Some a) false h size name) + i) = 0.
Proof.
  intros Ha Hs Hn Hi.
  rewrite malloc_impl_mapped_ptr.
  rewrite (fresh_heap h a size name Ha Hs Hn false).
  cbn [mem with_mem].
  assert (H64 : sizeof_mem_block = 64) by reflexivity.
  rewrite wrap_small by lia.
  unfold load8.
  rewrite (fresh_m6_outside h a size name Hs Hn) by (unfold off_size; lia).
  reflexivity.
Qed.

Lemma malloc_impl_payload_zero_witness :
  load8 (mem (fst (malloc_impl (Some 4096) false initial_heap 300 [97])))
    (snd (malloc_impl (Some 4096) false initial_heap 300 [97]) + 299) = 0.
Proof.
  apply (malloc_impl_payload_zero 4096 initial_heap 300 [97] 299).
  - rewrite SIZE_MAX1_eq. unfold sizeof_mem_block. lia.
  - rewrite SIZE_MAX1_eq. unfold sizeof_mem_block. lia.
  - cbn. lia.
  - lia.
Defined.

(** ** Zero allocation and resizing, continued *)

(** X17: [calloc_impl] does not check what [malloc_impl] returned.
    When the mapping fails and the product [nmemb * size] is not zero
    modulo 2^64, the call does not return [NULL]: it runs [memset] on
    the null pointer. *)
Theorem calloc_impl_mmap_failure (scribble : bool)
    (h : heap) (nmemb size : Z) (name : list Z) :
  0 < wrap (nmemb * size) ->
  calloc_impl None scribble h nmemb size name = None.
Proof.
  intros Hp. unfold calloc_impl, malloc_impl, reuse.
  rewrite Z.eqb_refl. cbn [negb].
  rewrite Z.eqb_refl.
  destruct (Z.ltb_spec 0 (wrap (nmemb * size))) as [_|E]; [reflexivity | lia].
Qed.

Lemma calloc_impl_mmap_failure_witness :
  calloc_impl None false initial_heap 10 8 [] = None.
Proof.
  apply calloc_impl_mmap_failure. vm_compute. reflexivity.
Defined.



(** ** Sequences of calls *)

Lemma free_impl_same_chain (h : heap) (ptr : Z) :
  blist_head (free_impl h ptr) = blist_head h /\
  blist_tail (free_impl h ptr) = blist_tail h.
Proof.
  unfold free_impl.
  destruct (ptr =? NULL); [split; reflexivity|].
  unfold add_free.
  destruct ((free_head h =? NULL) && (free_tail h =? NULL)); split; reflexivity.
Qed.

Lemma free_impl_same_free_tail (h : heap) (ptr : Z) :
  free_tail h <> NULL -> free_tail (free_impl h ptr) = free_tail h.
Proof.
  intros Ht. unfold free_impl.
  destruct (ptr =? NULL); [reflexivity|].
  unfold add_free.
  destruct (Z.eqb_spec (free_tail h) NULL) as [E|_]; [contradiction|].
  rewrite andb_false_r. reflexivity.
Qed.

Lemma bound_malloc_same_lists (b : binding) (h : heap) (size : Z) :
  same_lists h (fst (bound_malloc b h size)).
Proof.
  destruct b as [answer owned | mm sc]; cbn [bound_malloc fst].
  - apply same_lists_refl.
  - apply malloc_impl_same_lists.
Qed.

Lemma bound_free_same_chain (b : binding) (h h' : heap) (ptr : Z) :
  bound_free b h ptr = Some h' ->
  blist_head h' = blist_head h /\ blist_tail h' = blist_tail h.
Proof.
  destruct b as [answer owned | mm sc]; cbn [bound_free]; intros H.
  - destruct ((ptr =? NULL) || (ptr =? answer) || owned ptr); [|discriminate].
    injection H as <-. split; reflexivity.
  - injection H as <-. apply free_impl_same_chain.
Qed.

Lemma bound_free_same_free_tail (b : binding) (h h' : heap) (ptr : Z) :
  bound_free b h ptr = Some h' ->
  free_tail h <> NULL -> free_tail h' = free_tail h.
Proof.
  destruct b as [answer owned | mm sc]; cbn [bound_free]; intros H Ht.
  - destruct ((ptr =? NULL) || (ptr =? answer) || owned ptr); [|discriminate].
    injection H as <-. reflexivity.
  - injection H as <-. apply free_impl_same_free_tail. exact Ht.
Qed.

(** Whatever [malloc] and [free] are bound to, a call of [realloc_impl]
    that returns leaves the block chain pointers as they were. *)
Lemma realloc_impl_same_chain (b : binding) (mm : option Z) (scribble : bool)
    (h : heap) (ptr size : Z) (name : list Z) :
  realloc_impl b mm scribble h ptr size name = None \/
  exists r,
    realloc_impl b mm scribble h ptr size name = Some r /\
    blist_head (fst r) = blist_head h /\ blist_tail (fst r) = blist_tail h.
Proof.
  unfold realloc_impl.
  pose proof (bound_malloc_same_lists b h size) as (A1 & A2 & _).
  destruct (bound_malloc b h size) as [h1 q]. cbn [fst] in A1, A2.
  destruct (q =? NULL).
  - right. eexists. split; [reflexivity|].
    destruct (malloc_impl_same_lists mm scribble h1 size name) as (B1 & B2 & _).
    split; congruence.
  - destruct (ptr =? NULL).
    + right. eexists. split; [reflexivity|]. cbn [fst]. split; assumption.
    + destruct (size =? 0).
      * destruct (bound_free b h1 q) as [h2|] eqn:E; [|left; reflexivity].
        right. eexists. split; [reflexivity|]. cbn [fst].
        destruct (bound_free_same_chain b h1 h2 q E) as [C1 C2].
        split; congruence.
      * destruct (bound_free b (with_mem h1 (memcpy (mem h1) q ptr size)) ptr)
          as [h3|] eqn:E; [|left; reflexivity].
        right. eexists. split; [reflexivity|]. cbn [fst].
        destruct (bound_free_same_chain b _ h3 ptr E) as [C1 C2].
        cbn [with_mem blist_head blist_tail] in C1, C2.
        split; congruence.
Qed.

Lemma realloc_impl_same_free_tail (b : binding) (mm : option Z) (scribble : bool)
    (h : heap) (ptr size : Z) (name : list Z) :
  free_tail h <> NULL ->
  realloc_impl b mm scribble h ptr size name = None \/
  exists r,
    realloc_impl b mm scribble h ptr size name = Some r /\
    free_tail (fst r) = free_tail h.
Proof.
  intros Ht. unfold realloc_impl.
  pose proof (bound_malloc_same_lists b h size) as (_ & _ & _ & A4).
  destruct (bound_malloc b h size) as [h1 q]. cbn [fst] in A4.
  assert (Ht1 : free_tail h1 <> NULL) by congruence.
  destruct (q =? NULL).
  - right. eexists. split; [reflexivity|].
    destruct (malloc_impl_same_lists mm scribble h1 size name) as (_ & _ & _ & B4).
    congruence.
  - destruct (ptr =? NULL).
    + right. eexists. split; [reflexivity|]. cbn [fst]. exact A4.
    + destruct (size =? 0).
      * destruct (bound_free b h1 q) as [h2|] eqn:E; [|left; reflexivity].
        right. eexists. split; [reflexivity|]. cbn [fst].
        rewrite (bound_free_same_free_tail b h1 h2 q E Ht1). exact A4.
      * destruct (bound_free b (with_mem h1 (memcpy (mem h1) q ptr size)) ptr)
          as [h3|] eqn:E; [|left; reflexivity].
        right. eexists. split; [reflexivity|]. cbn [fst].
        rewrite (bound_free_same_free_tail b _ h3 ptr E Ht1). exact A4.
Qed.

Lemma step_keeps_chain (h h' : heap) (c : call) :
  step h c = Some h' ->
  blist_head h' = blist_head h /\ blist_tail h' = blist_tail h.
Proof.
  destruct c as [mm sc size name | ptr | mm sc nmemb size name
                | b mm sc ptr size name | block size | block];
    cbn [step]; intros H.
  - injection H as <-.
    destruct (malloc_impl_same_lists mm sc h size name) as (H1 & H2 & _).
    split; assumption.
  - injection H as <-. unfold free_impl.
    destruct (ptr =? NULL); [split; reflexivity|].
    unfold add_free.
    destruct ((free_head h =? NULL) && (free_tail h =? NULL)); split; reflexivity.
  - unfold calloc_impl in H.
    pose proof (malloc_impl_same_lists mm sc h (wrap (nmemb * size)) name)
      as (H1 & H2 & _).
    destruct (malloc_impl mm sc h (wrap (nmemb * size)) name) as [h1 p].
    cbn [fst] in H1, H2.
    destruct ((p =? NULL) && (0 <? wrap (nmemb * size))); [discriminate|].
    destruct (negb (p =? NULL) && negb (in_mapping mm p (wrap (nmemb * size))));
      [discriminate|].
    cbn [option_map fst] in H. injection H as <-.
    split; assumption.
  - destruct (realloc_impl_same_chain b mm sc h ptr size name) as [E|(r & E & H1 & H2)];
      rewrite E in H; [discriminate|].
    cbn [option_map] in H. injection H as <-.
    split; assumption.
  - injection H as <-.
    destruct (split_block_same_lists h block size) as (H1 & H2 & _).
    split; assumption.
  - injection H as <-. split; reflexivity.
Qed.

(** X19: no call ever links a block into the block chain.  After any
    sequence of calls of [malloc_impl], [free_impl], [calloc_impl],
    [realloc_impl], [split_block] and [merge_block] that runs to its end,
    [blist_head] and [blist_tail] are what they were at the start; from
    the initial heap both are [NULL], so a walk of the block chain
    finds no block, however many blocks were allocated. *)
Theorem run_keeps_chain (cs : list call) :
  forall h h',
    run h cs = Some h' ->
    blist_head h' = blist_head h /\ blist_tail h' = blist_tail h /\
    (blist_head h = NULL -> forall n, block_walk n (mem h') (blist_head h') = []).
Proof.
  induction cs as [|c cs IH]; intros h h' H.
  - cbn in H. injection H as <-.
    split; [reflexivity|]. split; [reflexivity|].
    intros E n. rewrite E. destruct n; reflexivity.
  - cbn [run] in H.
    destruct (step h c) as [h1|] eqn:E1; [|discriminate].
    destruct (step_keeps_chain h h1 c E1) as [A1 A2].
    destruct (IH h1 h' H) as (B1 & B2 & B3).
    split; [congruence|]. split; [congruence|].
    intros E. apply B3. congruence.
Qed.

Lemma run_keeps_chain_witness :
  blist_head released_once = NULL /\
  block_walk 5 (mem released_once) (blist_head released_once) = [].
Proof.
  destruct (run_keeps_chain
              [CallMalloc (Some 4096) false 8 []; CallFree 4160]
              initial_heap released_once) as (H1 & _ & H3).
  - reflexivity.
  - split; [exact H1 | exact (H3 eq_refl 5%nat)].
Defined.

Lemma step_keeps_free_tail (h h' : heap) (c : call) :
  step h c = Some h' -> free_tail h <> NULL -> free_tail h' = free_tail h.
Proof.
  destruct c as [mm sc size name | ptr | mm sc nmemb size name
                | b mm sc ptr size name | block size | block];
    cbn [step]; intros H Ht.
  - injection H as <-.
    destruct (malloc_impl_same_lists mm sc h size name) as (_ & _ & _ & H4).
    exact H4.
  - injection H as <-. unfold free_impl.
    destruct (ptr =? NULL); [reflexivity|].
    unfold add_free.
    destruct (Z.eqb_spec (free_tail h) NULL) as [E|_]; [contradiction|].
    rewrite andb_false_r. reflexivity.
  - unfold calloc_impl in H.
    pose proof (malloc_impl_same_lists mm sc h (wrap (nmemb * size)) name)
      as (_ & _ & _ & H4).
    destruct (malloc_impl mm sc h (wrap (nmemb * size)) name) as [h1 p].
    cbn [fst] in H4.
    destruct ((p =? NULL) && (0 <? wrap (nmemb * size))); [discriminate|].
    destruct (negb (p =? NULL) && negb (in_mapping mm p (wrap (nmemb * size))));
      [discriminate|].
    cbn [option_map fst] in H. injection H as <-.
    exact H4.
  - destruct (realloc_impl_same_free_tail b mm sc h ptr size name Ht)
      as [E|(r & E & H1)]; rewrite E in H; [discriminate|].
    cbn [option_map] in H. injection H as <-.
    exact H1.
  - injection H as <-.
    destruct (split_block_same_lists h block size) as (_ & _ & _ & H4).
    exact H4.
  - injection H as <-. reflexivity.
Qed.

(** X20: the tail of the free list never moves once it is set.  After
    any sequence of calls that runs to its end from a heap whose
    [free_tail] is not [NULL], [free_tail] is still the same block: the
    first block ever released stays the tail, since no call takes a block
    off the free list. *)
Theorem run_keeps_free_tail (cs : list call) :
  forall h h',
    run h cs = Some h' -> free_tail h <> NULL -> free_tail h' = free_tail h.
Proof.
  induction cs as [|c cs IH]; intros h h' H Ht.
  - cbn in H. injection H as <-. reflexivity.
  - cbn [run] in H.
    destruct (step h c) as [h1|] eqn:E1; [|discriminate].
    pose proof (step_keeps_free_tail h h1 c E1 Ht) as A.
    rewrite <- A. apply IH; [exact H | rewrite A; exact Ht].
Qed.

Lemma run_keeps_free_tail_witness :
  free_tail (add_free released_once 8192) = free_tail released_once.
Proof.
  apply (run_keeps_free_tail [CallFree (8192 + 64)] released_once).
  - reflexivity.
  - vm_compute. discriminate.
Defined.
